(** * internalgraph: a shallow embedding of [internal_graph.py]

    The Python module defines the classes [BaseGraphElement], [Node], [Edge]
    and [InternalGraph].  Each class becomes a module holding a record [t]
    and one Rocq function per method; Python dictionaries become [gmap]s,
    Python sets become [gset]s and Python lists become [list]s. *)

From Stdlib Require Import ZArith String Ascii.
From stdpp Require Import gmap strings list fin_maps relations.

Set Warnings "-clear-no-such-hyp".

(** ** Python values *)

(** An identifier is a [uuid.UUID] (a 128-bit number) or a [str].  The two
    never compare equal in Python, which the derived equality respects. *)
Inductive ident :=
  | IdUuid (u : N)
  | IdStr (s : string).

Global Instance ident_eq_dec : EqDecision ident.
Proof. solve_decision. Defined.

Global Instance ident_countable : Countable ident.
Proof.
  refine (inj_countable'
    (λ i, match i with IdUuid u => inl u | IdStr s => inr s end)
    (λ x, match x with inl u => IdUuid u | inr s => IdStr s end) _).
  by intros [].
Defined.

(** Property values.  Only the operations used by the module matter: a
    [str] has a [find] method, the other kinds do not. *)
Inductive value :=
  | VNone
  | VBool (b : bool)
  | VInt (z : Z)
  | VStr (s : string)
  | VUuid (u : N).

Global Instance value_eq_dec : EqDecision value.
Proof. solve_decision. Defined.

Definition value_of_ident (i : ident) : value :=
  match i with
  | IdUuid u => VUuid u
  | IdStr s => VStr s
  end.

(** The exceptions the module can raise. *)
Inductive error :=
  | KeyError (key : string)
  | AttributeError (attr : string)
  | ValueError (msg : string).

Inductive result (A : Type) :=
  | Ok (a : A)
  | Raise (e : error).
Arguments Ok {A} a.
Arguments Raise {A} e.

Global Instance result_ret : MRet result := λ A a, Ok a.
Global Instance result_bind : MBind result := λ A B f r,
  match r with
  | Ok a => f a
  | Raise e => Raise e
  end.

(** [a | b] on dictionaries: the entries of [b] win. *)
Definition dict_or {V} (a b : gmap string V) : gmap string V := b ∪ a.

(** [s.find(sub)]: lowest index of [sub] in [s], or [-1]. *)
Definition str_find (s sub : string) : Z :=
  match String.index 0 sub s with
  | Some n => Z.of_nat n
  | None => (-1)%Z
  end.

(** ** class BaseGraphElement *)
Module BaseGraphElement.

(** [oid] is the identity of the Python object (what [is] compares);
    the class defines no [__eq__], so [==] and [in] on elements compare
    identities. *)
Record t := {
  oid : N;
  id : ident;
  _properties : gmap string value;
}.

Definition set_property (self : t) (name : string) (v : value) : t :=
  {| oid := oid self; id := id self;
     _properties := <[name := v]> (_properties self) |}.

Definition get_property (self : t) (name : string) (no_error : bool)
    : result value :=
  if String.eqb name "id" then Ok (value_of_ident (id self))
  else if no_error then Ok (default VNone (_properties self !! name))
  else match _properties self !! name with
       | Some v => Ok v
       | None => Raise (KeyError name)
       end.

(** The loop over [in_dict.items()] is a fold that inserts every item in
    [left] or in [right]. *)
Definition split_step (strip_list : list string) (k : string) (v : value)
    (acc : gmap string value * gmap string value) :=
  if bool_decide (k ∈ strip_list)
  then (<[k := v]> acc.1, acc.2)
  else (acc.1, <[k := v]> acc.2).

Definition split_dict (in_dict : gmap string value)
    (strip_list : list string)
    : result (gmap string value * gmap string value) :=
  match strip_list with
  | [] => Raise (ValueError "strip_list must be non-empty")
  | _ => Ok (map_fold (split_step strip_list) (∅, ∅) in_dict)
  end.

Definition __dict__ (self : t) : gmap string value :=
  dict_or (_properties self) {[ "id" := value_of_ident (id self) ]}.

(** [__iter__] yields the members of [set(key_list)], in no particular
    order: the keys of the bag, which are [str]s, and what was appended
    to [key_list]. *)
Definition __iter__ (self : t) : gset ident :=
  let key_list := IdStr <$> (map_to_list (_properties self)).*1 in
  let key_list := key_list ++ [id self] in
  list_to_set key_list.

End BaseGraphElement.

(** ** class Node(BaseGraphElement): pass *)
Module Node.
Definition t := BaseGraphElement.t.
Definition __dict__ (self : t) := BaseGraphElement.__dict__ self.
End Node.

(** ** class Edge(BaseGraphElement) *)
Module Edge.

Record t := {
  super : BaseGraphElement.t;
  from_id : ident;
  to_id : ident;
}.

Definition id (self : t) := BaseGraphElement.id (super self).

Definition __dict__ (self : t) : gmap string value :=
  dict_or (BaseGraphElement._properties (super self))
    (<[ "id" := value_of_ident (id self) ]>
     (<[ "start" := value_of_ident (from_id self) ]>
      (<[ "end" := value_of_ident (to_id self) ]> ∅))).

End Edge.

(** An object of the module: a node or an edge. *)
Inductive element :=
  | ENode (n : Node.t)
  | EEdge (e : Edge.t).

Definition base (x : element) : BaseGraphElement.t :=
  match x with
  | ENode n => n
  | EEdge e => Edge.super e
  end.

(** [self.__dict__()] dispatches on the class of [self]. *)
Definition dict_of (x : element) : gmap string value :=
  match x with
  | ENode n => Node.__dict__ n
  | EEdge e => Edge.__dict__ e
  end.

(** A serialized element: promoted values at the top level and the nested
    ["short_details"] dictionary. *)
Inductive sval :=
  | SVal (v : value)
  | SDict (d : gmap string value).

Definition default_split_list : list string :=
  ["id"; "label"; "description"; "type"].

Definition edge_split_list : list string :=
  ["id"; "label"; "description"; "type"; "start"; "end"].

(** [BaseGraphElement.serialize]; [if not split_list] holds for [None] and
    for the empty list. *)
Definition base_serialize (self : element) (split_list : option (list string))
    : result (gmap string sval) :=
  let split_list :=
    match split_list with
    | None | Some [] => default_split_list
    | Some l => l
    end in
  let original := dict_of self in
  '(outer, inner) ← BaseGraphElement.split_dict original split_list;
  mret (dict_or (SVal <$> outer) {[ "short_details" := SDict inner ]}).

(** [Edge.serialize] overrides it and takes no argument. *)
Definition serialize (self : element) : result (gmap string sval) :=
  match self with
  | ENode _ => base_serialize self None
  | EEdge _ => base_serialize self (Some edge_split_list)
  end.

(** ** class InternalGraph *)
Module InternalGraph.

Record t := {
  nodes : list Node.t;
  edges : list Edge.t;
  _all_node_ids : gset ident;
}.

(** [nodes if nodes else list()]: [None] and the empty list both give an
    empty sequence. *)
Definition __init__ (nodes : option (list Node.t))
    (edges : option (list Edge.t)) : t :=
  {| nodes := default [] nodes;
     edges := default [] edges;
     _all_node_ids :=
       foldl (λ ids x, ids ∪ {[ BaseGraphElement.id x ]}) ∅
             (default [] nodes) |}.

(** The generators are modelled by the list of what they yield, built
    in the order of the loop. *)
Definition neighbors_step (id : ident) (out : list ident) (e : Edge.t)
    : list ident :=
  let out :=
    if bool_decide (id = Edge.from_id e) then out ++ [Edge.to_id e]
    else out in
  if bool_decide (id = Edge.to_id e) then out ++ [Edge.from_id e]
  else out.

Definition get_node_neighbors (self : t) (id : ident) : list ident :=
  foldl (neighbors_step id) [] (edges self).

Definition all_edges_step (node_ids : list ident) (out : list Edge.t)
    (e : Edge.t) : list Edge.t :=
  if bool_decide (Edge.from_id e ∈ node_ids)
     && bool_decide (Edge.to_id e ∈ node_ids)
  then out ++ [e]
  else out.

Definition get_all_edges (self : t) (node_ids : list ident)
    : list Edge.t :=
  foldl (all_edges_step node_ids) [] (edges self).

(** [add_node] takes one node or a list of nodes. *)
Inductive node_arg :=
  | OneNode (n : Node.t)
  | NodeList (l : list Node.t).

Definition add_node_step (st : t * list Node.t) (n : Node.t)
    : t * list Node.t :=
  let self := st.1 in
  let added_nodes := st.2 in
  if bool_decide (BaseGraphElement.id n ∈ _all_node_ids self) then st
  else
    ({| nodes := nodes self ++ [n];
        edges := edges self;
        _all_node_ids := _all_node_ids self ∪ {[ BaseGraphElement.id n ]} |},
     added_nodes ++ [n]).

(** Returns the updated graph and the list [added_nodes]. *)
Definition add_node (self : t) (node : node_arg) : t * list Node.t :=
  let node :=
    match node with
    | OneNode n => [n]
    | NodeList l => l
    end in
  foldl add_node_step (self, []) node.

Inductive edge_arg :=
  | OneEdge (e : Edge.t)
  | EdgeList (l : list Edge.t).

Definition add_edge (self : t) (edge : edge_arg) : t :=
  {| nodes := nodes self;
     edges :=
       match edge with
       | EdgeList l => edges self ++ l
       | OneEdge e => edges self ++ [e]
       end;
     _all_node_ids := _all_node_ids self |}.

Definition node_exists (self : t) (id : ident) : bool :=
  bool_decide (id ∈ _all_node_ids self).

Definition get_all_node_property_names (self : t) : gset string :=
  list_to_set (e ← nodes self; (map_to_list (Node.__dict__ e)).*1).

Definition get_all_edge_property_names (self : t) : gset string :=
  list_to_set (e ← edges self; (map_to_list (Edge.__dict__ e)).*1).

(** What [graph[name]] can be indexed with: a raw id, a node or an
    edge. *)
Inductive key :=
  | KId (i : ident)
  | KNode (n : Node.t)
  | KEdge (e : Edge.t).

(** [x.id == name]: an id is a [UUID] or a [str], and neither is ever
    equal to a [Node] or an [Edge] object. *)
Definition id_eq_name (i : ident) (name : key) : bool :=
  match name with
  | KId j => bool_decide (i = j)
  | KNode _ | KEdge _ => false
  end.

(** [None] is Python's implicit [return None]. *)
Definition __getitem__ (self : t) (name : key) : option element :=
  match name with
  | KNode _ =>
      ENode <$> find (λ x, id_eq_name (BaseGraphElement.id x) name)
                     (nodes self)
  | KEdge _ =>
      EEdge <$> find (λ x, id_eq_name (Edge.id x) name) (edges self)
  | KId _ =>
      match find (λ x, id_eq_name (BaseGraphElement.id x) name)
                 (nodes self) with
      | Some x => Some (ENode x)
      | None =>
          EEdge <$> find (λ x, id_eq_name (Edge.id x) name) (edges self)
      end
  end.

(** A Python object that can sit in the list [total]: an element, or
    [None] when the lookup found nothing. *)
Abbreviation obj := (option element).

(** [a == b] on such objects is identity. *)
Definition obj_eq (a b : obj) : bool :=
  match a, b with
  | None, None => true
  | Some x, Some y =>
      bool_decide
        (BaseGraphElement.oid (base x) = BaseGraphElement.oid (base y))
  | _, _ => false
  end.

(** [a in l] *)
Definition obj_in (a : obj) (l : list obj) : bool := existsb (obj_eq a) l.

(** [for child in children: if child not in total: total.append(child)] *)
Definition merge_children (total children : list obj) : list obj :=
  foldl (λ total child,
           if obj_in child total then total else total ++ [child])
        total children.

(** The result of a run that may stop for lack of fuel ([None]). *)
Definition run (A : Type) := option (result A).

(** The loop [for found_node in total] of [get_all_node_parents].  The
    list [total] grows while it is iterated, and Python's list iterator
    then visits the appended items too; the loop is therefore the walk
    of an index [i] over the current [total].  [rec] is the recursive
    call [self.get_all_node_parents(found_node, parents=total)]: the
    callee only reads [parents], and the caller does not touch [total]
    until the callee returns, so passing the current value of the list
    is the same as passing the list object. *)
Fixpoint for_found_node
    (rec : element → list obj → run (option (list obj)))
    (parents : option (list obj)) (fuel i : nat) (total : list obj)
    : run (list obj) :=
  match fuel with
  | 0 => None
  | S fuel =>
      match total !! i with
      | None => Some (Ok total)
      | Some None => Some (Raise (AttributeError "get_property"))
      | Some (Some found_node) =>
          match BaseGraphElement.get_property (base found_node) "label"
                  false with
          | Raise e => Some (Raise e)
          | Ok (VStr label) =>
              if (str_find label ":" <? 0)%Z
              then for_found_node rec parents fuel (S i) total
              else if match parents with
                      | None | Some [] => true
                      | Some ps => negb (obj_in (Some found_node) ps)
                      end
              then
                match rec found_node total with
                | None => None
                | Some (Raise e) => Some (Raise e)
                | Some (Ok children) =>
                    let total :=
                      match children with
                      | None | Some [] => total
                      | Some cs => merge_children total cs
                      end in
                    for_found_node rec parents fuel (S i) total
                end
              else for_found_node rec parents fuel (S i) total
          | Ok _ => Some (Raise (AttributeError "find"))
          end
      end
  end.

(** The recursion of the method is not bounded by the code; [fuel]
    bounds the depth of the recursion and the length of each loop.  The
    recursion limit of the interpreter is not modelled. *)
Fixpoint get_all_node_parents (fuel : nat) (self : t) (start : element)
    (parents : option (list obj)) : run (option (list obj)) :=
  match fuel with
  | 0 => None
  | S fuel =>
      let total :=
        (λ e, __getitem__ self (KId (Edge.to_id e))) <$>
        filter (λ e, Edge.from_id e = BaseGraphElement.id (base start))
               (edges self) in
      match total with
      | [] => Some (Ok None)
      | _ =>
          match for_found_node
                  (λ found_node total,
                     get_all_node_parents fuel self found_node (Some total))
                  parents fuel 0 total with
          | None => None
          | Some (Raise e) => Some (Raise e)
          | Some (Ok total) => Some (Ok (Some total))
          end
      end
  end.

End InternalGraph.

Import InternalGraph.

(** * Vocabulary of the statements *)

(** ** Serialization *)

(** The promoted keys an entity is serialized with by default. *)
Definition promoted_keys (x : element) : list string :=
  match x with
  | ENode _ => default_split_list
  | EEdge _ => edge_split_list
  end.

(** ** Neighbours and induced edges *)

(** What one edge yields for [id]: its [to_id] if it leaves [id], then its
    [from_id] if it enters [id]. *)
Definition edge_neighbors (id : ident) (e : Edge.t) : list ident :=
  (if bool_decide (id = Edge.from_id e) then [Edge.to_id e] else []) ++
  (if bool_decide (id = Edge.to_id e) then [Edge.from_id e] else []).

(** Both ends of the edge are in [node_ids]. *)
Definition induced (node_ids : list ident) (e : Edge.t) : Prop :=
  Edge.from_id e ∈ node_ids ∧ Edge.to_id e ∈ node_ids.

Global Instance induced_dec node_ids e : Decision (induced node_ids e).
Proof. unfold induced. apply _. Defined.

(** ** Insertion and the membership index *)

(** The nodes of [l] that get inserted when the ids in [ids] are present:
    each node whose id is not present yet, in order. *)
Fixpoint inserted (ids : gset ident) (l : list Node.t) : list Node.t :=
  match l with
  | [] => []
  | n :: l =>
      if bool_decide (BaseGraphElement.id n ∈ ids) then inserted ids l
      else n :: inserted (ids ∪ {[ BaseGraphElement.id n ]}) l
  end.

(** The graph with the nodes [added] appended and indexed. *)
Definition grow (g : t) (added : list Node.t) : t :=
  {| nodes := nodes g ++ added;
     edges := edges g;
     _all_node_ids :=
       _all_node_ids g ∪ list_to_set (BaseGraphElement.id <$> added) |}.

(** The invariant of the data model: the membership index is the set of
    the ids in the node sequence. *)
Definition index_in_sync (g : t) : Prop :=
  _all_node_ids g = list_to_set (BaseGraphElement.id <$> nodes g).

(** The mutations of a graph. *)
Inductive op :=
  | AddNode (a : node_arg)
  | AddEdge (a : edge_arg).

Definition apply_op (g : t) (o : op) : t :=
  match o with
  | AddNode a => (add_node g a).1
  | AddEdge a => add_edge g a
  end.

(** ** Descendant discovery *)

(** The string contains a colon. *)
Definition has_colon (s : string) : Prop :=
  ∃ a b, s = a +:+ String ":"%char b.

(** [self[i]] for a raw id. *)
Definition lookup_id (g : t) (i : ident) : obj := __getitem__ g (KId i).

(** The edges that leave [i], and the candidate list built from them at
    the top of [get_all_node_parents]. *)
Definition outgoing (g : t) (i : ident) : list Edge.t :=
  filter (λ e, Edge.from_id e = i) (edges g).

Definition children (g : t) (i : ident) : list obj :=
  (λ e, __getitem__ g (KId (Edge.to_id e))) <$> outgoing g i.

(** The edge relation on ids, and its acyclicity. *)
Definition edge_rel (g : t) (i j : ident) : Prop :=
  ∃ e, e ∈ edges g ∧ Edge.from_id e = i ∧ Edge.to_id e = j.

Definition acyclic (g : t) : Prop := ∀ i, ¬ tc (edge_rel g) i i.

(** The label of the element is a string with a colon in it. *)
Definition colon_labelled (x : element) : Prop :=
  ∃ s, BaseGraphElement._properties (base x) !! "label" = Some (VStr s) ∧
       has_colon s.

(** The candidate is an element whose label is a string without a colon:
    the loop skips it. *)
Definition colon_free (o : obj) : Prop :=
  ∃ y lbl, o = Some y ∧
    BaseGraphElement._properties (base y) !! "label" = Some (VStr lbl) ∧
    ¬ has_colon lbl.

(** [reach g s j]: the id [j] is reached from [s] along outgoing edges,
    every intermediate id resolving to an element with a colon in its
    label. *)
Inductive reach (g : t) (s : ident) : ident → Prop :=
  | reach_edge j : edge_rel g s j → reach g s j
  | reach_via j k x :
      reach g s j → lookup_id g j = Some x → colon_labelled x →
      edge_rel g j k → reach g s k.

(** The id resolves to an element whose label is a string. *)
Definition labelled (g : t) (i : ident) : Prop :=
  ∃ x s, lookup_id g i = Some x ∧
         BaseGraphElement._properties (base x) !! "label" = Some (VStr s).

(** The elements held by the graph. *)
Definition objects (g : t) : list element :=
  (ENode <$> nodes g) ++ (EEdge <$> edges g).

(** Two entries of the graph with the same identity are the same Python
    object, so they have the same contents. *)
Definition coherent (g : t) : Prop :=
  ∀ x y, x ∈ objects g → y ∈ objects g →
    BaseGraphElement.oid (base x) = BaseGraphElement.oid (base y) → x = y.

(** [not parents or found_node not in parents] *)
Definition must_expand (parents : option (list obj)) (x : element) : Prop :=
  match parents with
  | None | Some [] => True
  | Some ps => obj_in (Some x) ps = false
  end.

(** Every candidate before index [i] that the loop expands has its
    children in [total]. *)
Definition closed (g : t) (parents : option (list obj)) (total : list obj)
    (i : nat) : Prop :=
  ∀ k x, k < i → total !! k = Some (Some x) → colon_labelled x →
    must_expand parents x →
    ∀ o, o ∈ children g (BaseGraphElement.id (base x)) → o ∈ total.

(** The invariant of the loop on [total]: it is the initial candidate list
    followed by distinct new objects, and each of its members is reached
    from [s]. *)
Definition loop_inv (g : t) (s : ident) (initial total : list obj) : Prop :=
  (∃ appended, total = initial ++ appended ∧ NoDup appended ∧
     ∀ o, o ∈ appended → o ∉ initial) ∧
  (∀ o, o ∈ total → ∃ j, reach g s j ∧ lookup_id g j = o).

(** What a call on the element [x] returns, as its caller uses it. *)
Definition rec_spec (g : t) (x : element) (r : option (list obj)) : Prop :=
  match r with
  | None => children g (BaseGraphElement.id (base x)) = []
  | Some total =>
      children g (BaseGraphElement.id (base x)) ≠ [] ∧
      (∀ o, o ∈ children g (BaseGraphElement.id (base x)) → o ∈ total) ∧
      (∀ o, o ∈ total →
         ∃ j, reach g (BaseGraphElement.id (base x)) j ∧ lookup_id g j = o)
  end.

(** What a call from the id [s] returns, in full. *)
Definition call_post (g : t) (s : ident) (parents : option (list obj))
    (r : option (list obj)) : Prop :=
  match r with
  | None => outgoing g s = []
  | Some total =>
      outgoing g s ≠ [] ∧
      loop_inv g s (children g s) total ∧
      closed g parents total (length total)
  end.

(** The list the caller merges: nothing for [None]. *)
Definition returned (r : option (list obj)) : list obj := default [] r.

(** The outcome is a result, or it is the missing-key error for
    ["label"]. *)
Definition result_or_key_error {A} (r : result A) : Prop :=
  match r with
  | Ok _ => True
  | Raise e => e = KeyError "label"
  end.

(** The candidate [o] does not make the loop of a call with the argument
    [parents] fail in another way than by [KeyError "label"], where
    [initial] is the candidate list the loop starts from.  The candidate is
    an element; its label, if it has one, is a string; and if the loop
    expands it, the recursive call on it terminates, with a result or with
    [KeyError "label"].  The recursive call receives the current candidate
    list, which is [initial] followed by what the loop has appended. *)
Definition passes (g : t) (parents : option (list obj))
    (initial : list obj) (o : obj) : Prop :=
  ∃ y, o = Some y ∧
    match BaseGraphElement._properties (base y) !! "label" with
    | None => True
    | Some (VStr lbl) =>
        has_colon lbl → must_expand parents y →
        ∀ added, ∃ fuel0 r,
          result_or_key_error r ∧
          ∀ fuel, fuel0 ≤ fuel →
            get_all_node_parents fuel g y (Some (initial ++ added))
              = Some r
    | Some _ => False
    end.

(** One more turn of the loop on enough fuel: the case without fuel is
    excluded by the bounds at hand. *)
Ltac spend_fuel fuelR fuelL :=
  intros fuelR [|fuelL] ? ?; [lia|]; simpl.

(** * More of the module *)

(** ** Serialization of a graph *)

(** [InternalGraph.serialize]:
    [{'nodes': [n.serialize() for n in self.nodes],
      'edges': [e.serialize() for e in self.edges]}]; an exception of one
    [serialize] would end the call. *)
Definition graph_serialize (self : t)
    : result (gmap string (list (gmap string sval))) :=
  ns ← mapM (λ n, serialize (ENode n)) (nodes self);
  es ← mapM (λ e, serialize (EEdge e)) (edges self);
  mret (<[ "nodes" := ns ]> (<[ "edges" := es ]> ∅)).

(** What [serialize] leaves of a document when its nesting is undone: the
    promoted fields together with the fields of ["short_details"]. *)
Definition flatten (d : gmap string sval) : gmap string value :=
  omap (λ s, match s with SVal v => Some v | SDict _ => None end) d ∪
  match d !! "short_details" with
  | Some (SDict inner) => inner
  | _ => ∅
  end.

(** ** Sets of property values *)

(** Python compares [True] with [1] and [False] with [0] as equal and hashes
    them alike; values of different kinds are different otherwise.  Two
    values are equal in Python when their normal forms are the same. *)
Definition py_norm (v : value) : value :=
  match v with
  | VBool b => VInt (Z.b2z b)
  | _ => v
  end.

Definition py_eq (v w : value) : bool := bool_decide (py_norm v = py_norm w).

(** A set under construction is the list of its members in the order in
    which they were added; Python does not show that order.  Adding a value
    equal to a member leaves the set, and the member, as they are. *)
Definition set_add (total : list value) (v : value) : list value :=
  if existsb (py_eq v) total then total else total ++ [v].

(** One item of [e.__dict__().items()] under
    [if filter_key and k == filter_key]: an empty [filter_key] is falsy. *)
Definition values_step (filter_key k : string) (v : value)
    (total : list value) : list value :=
  if negb (String.eqb filter_key "") && String.eqb k filter_key
  then set_add total v else total.

(** [{v for e in dicts for k, v in e.items()
       if filter_key and k == filter_key}]; at most one item of a
    dictionary has the key, so the order of its items does not matter. *)
Definition property_values (dicts : list (gmap string value))
    (filter_key : string) : list value :=
  foldl (λ total d, map_fold (values_step filter_key) total d) [] dicts.

Definition get_all_node_property_values (self : t) (filter_key : string)
    : list value :=
  property_values (Node.__dict__ <$> nodes self) filter_key.


(** ** Arguments of the mutations *)

Definition node_list (a : node_arg) : list Node.t :=
  match a with
  | OneNode n => [n]
  | NodeList l => l
  end.

Definition edge_list (a : edge_arg) : list Edge.t :=
  match a with
  | OneEdge e => [e]
  | EdgeList l => l
  end.


(** The object is an element whose label is a string. *)
Definition string_labelled (o : obj) : Prop :=
  ∃ y lbl, o = Some y ∧
    BaseGraphElement._properties (base y) !! "label" = Some (VStr lbl).

(** ** Example graphs *)

Definition mk_node (o : N) (i : string) (props : gmap string value) : Node.t :=
  {| BaseGraphElement.oid := o;
     BaseGraphElement.id := IdStr i;
     BaseGraphElement._properties := props |}.

Definition mk_edge (o : N) (from_id to_id : string) : Edge.t :=
  {| Edge.super :=
       {| BaseGraphElement.oid := o;
          BaseGraphElement.id := IdUuid o;
          BaseGraphElement._properties := ∅ |};
     Edge.from_id := IdStr from_id;
     Edge.to_id := IdStr to_id |}.

Definition ex_a : Node.t := mk_node 1 "a" {[ "label" := VStr "ns:a" ]}.
Definition ex_b : Node.t := mk_node 2 "b" {[ "label" := VStr "ns:b" ]}.
Definition ex_c : Node.t := mk_node 3 "c" {[ "label" := VStr "c" ]}.
Definition ex_d : Node.t := mk_node 4 "d" {[ "label" := VStr "d" ]}.
Definition ex_bare : Node.t := mk_node 5 "bare" {[ "name" := VStr "B" ]}.
Definition ex_uuid : Node.t :=
  {| BaseGraphElement.oid := 6;
     BaseGraphElement.id := IdUuid 77;
     BaseGraphElement._properties := {[ "name" := VStr "A" ]} |}.

(** a -> b -> c, a -> c, b -> d *)
Definition ex_dag : t :=
  __init__ (Some [ex_a; ex_b; ex_c; ex_d])
           (Some [mk_edge 10 "a" "b"; mk_edge 11 "b" "c";
                  mk_edge 12 "a" "c"; mk_edge 13 "b" "d"]).

Definition ex_rank (i : ident) : nat :=
  match i with
  | IdStr "a" => 2
  | IdStr "b" => 1
  | _ => 0
  end.

(** Two edges a -> c. *)
Definition ex_parallel : t :=
  __init__ (Some [ex_a; ex_c])
           (Some [mk_edge 10 "a" "c"; mk_edge 11 "a" "c"]).

(** a -> (no such node), a -> bare *)
Definition ex_dangling : t :=
  __init__ (Some [ex_a; ex_bare])
           (Some [mk_edge 10 "a" "ghost"; mk_edge 11 "a" "bare"]).

(** a -> c, a -> bare *)
Definition ex_unlabelled : t :=
  __init__ (Some [ex_a; ex_c; ex_bare])
           (Some [mk_edge 10 "a" "c"; mk_edge 11 "a" "bare"]).

(** a -> b -> c, a -> bare *)
Definition ex_expand : t :=
  __init__ (Some [ex_a; ex_b; ex_c; ex_bare])
           (Some [mk_edge 10 "a" "b"; mk_edge 11 "b" "c";
                  mk_edge 12 "a" "bare"]).

(** One self-loop on a. *)
Definition ex_loop : t :=
  __init__ (Some [ex_a]) (Some [mk_edge 10 "a" "a"]).

Definition ex_single : t := __init__ (Some [ex_uuid]) None.

(** a -> b -> a *)
Definition ex_cycle : t :=
  __init__ (Some [ex_a; ex_b])
           (Some [mk_edge 10 "a" "b"; mk_edge 11 "b" "a"]).

(** A property called ["short_details"]. *)
Definition ex_details : Node.t :=
  mk_node 7 "n" {[ "short_details" := VStr "kept?" ]}.

Definition ex_flag : Node.t := mk_node 8 "f" {[ "w" := VBool true ]}.
Definition ex_one : Node.t := mk_node 9 "o" {[ "w" := VInt 1 ]}.

Definition ex_values : t := __init__ (Some [ex_flag; ex_one; ex_bare]) None.

(** * Theorems *)

(** ** Strings: [find] and the colon test *)

Lemma prefix_empty (s : string) : String.prefix "" s = true.
Proof. by destruct s. Qed.

Lemma index_colon_cons (c : ascii) (s : string) :
  String.index 0 ":" (String c s) =
    if Ascii.ascii_dec ":"%char c then Some 0
    else S <$> String.index 0 ":" s.
Proof.
  cbn -[Ascii.ascii_dec String.prefix].
  change (String.prefix ":" (String c s))
    with (if Ascii.ascii_dec ":"%char c then String.prefix "" s else false).
  destruct (Ascii.ascii_dec ":"%char c) as [?|?]; [by rewrite prefix_empty|].
  by destruct (String.index 0 ":" s).
Qed.

Lemma index_colon (s : string) :
  is_Some (String.index 0 ":" s) ↔ has_colon s.
Proof.
  unfold has_colon. induction s as [|c s IH].
  - split; [by intros [? ?]|].
    intros ([|? ?] & b & Heq); discriminate.
  - rewrite index_colon_cons.
    destruct (Ascii.ascii_dec ":"%char c) as [<-|Hc].
    + split; [intros _; by exists "", s | intros _; by eexists].
    + rewrite fmap_is_Some, IH. split.
      * intros (a & b & ->). by exists (String c a), b.
      * intros ([|c' a] & b & Heq).
        -- injection Heq as Hc' _. by destruct Hc.
        -- injection Heq as <- ->. by exists a, b.
Qed.

(** [label.find(":") < 0] fails exactly when the label contains a colon. *)
Lemma str_find_colon (s : string) : (0 ≤ str_find s ":")%Z ↔ has_colon s.
Proof.
  rewrite <-index_colon. unfold str_find.
  destruct (String.index 0 ":" s) as [n|].
  - split; [by eauto|lia].
  - split; [lia|by intros [? ?]].
Qed.

(** ** Entities: properties *)

Lemma get_property_label (x : element) (v : value) :
  BaseGraphElement._properties (base x) !! "label" = Some v →
  BaseGraphElement.get_property (base x) "label" false = Ok v.
Proof. unfold BaseGraphElement.get_property. simpl. by intros ->. Qed.


(** C9.  [get_property "id"] returns the id of the entity whatever the bag
    holds.  For any other name: a stored value is returned; a missing key
    raises [KeyError] when [no_error] is off and gives [None] when it is
    on. *)
Theorem get_property_spec (self : BaseGraphElement.t) (name : string)
    (no_error : bool) :
  BaseGraphElement.get_property self "id" no_error
    = Ok (value_of_ident (BaseGraphElement.id self)) ∧
  (name ≠ "id" → ∀ v, BaseGraphElement._properties self !! name = Some v →
     BaseGraphElement.get_property self name no_error = Ok v) ∧
  (name ≠ "id" → BaseGraphElement._properties self !! name = None →
     BaseGraphElement.get_property self name false = Raise (KeyError name)) ∧
  (name ≠ "id" → BaseGraphElement._properties self !! name = None →
     BaseGraphElement.get_property self name true = Ok VNone).
Proof.
  unfold BaseGraphElement.get_property. split; [done|].
  split; [|split]; intros Hname; apply String.eqb_neq in Hname;
    rewrite Hname.
  - intros v ->. by destruct no_error.
  - by intros ->.
  - by intros ->.
Qed.

(** The node [ex_bare] has a ["name"] and no ["label"]. *)
Lemma get_property_spec_witness :
  BaseGraphElement.get_property ex_bare "id" false = Ok (VStr "bare") ∧
  BaseGraphElement.get_property ex_bare "name" false = Ok (VStr "B") ∧
  BaseGraphElement.get_property ex_bare "label" false
    = Raise (KeyError "label") ∧
  BaseGraphElement.get_property ex_bare "label" true = Ok VNone.
Proof.
  destruct (get_property_spec ex_bare "name" false) as (H1 & H2 & _).
  destruct (get_property_spec ex_bare "label" false) as (_ & _ & H3 & H4).
  split; [exact H1|]. split; [by apply H2|]. split; [by apply H3|by apply H4].
Defined.

(** ** Entities: serialization *)

(** The loop of [split_dict] computes the two filters of the dictionary. *)
Lemma split_dict_filter (in_dict : gmap string value)
    (strip_list : list string) :
  strip_list ≠ [] →
  BaseGraphElement.split_dict in_dict strip_list =
    Ok (filter (λ kv, kv.1 ∈ strip_list) in_dict,
        filter (λ kv, kv.1 ∉ strip_list) in_dict).
Proof.
  intros Hne. unfold BaseGraphElement.split_dict.
  destruct strip_list as [|s0 strip]; [done|]. f_equal.
  set (l := s0 :: strip).
  apply (map_fold_weak_ind
    (λ r m, r = (filter (λ kv, kv.1 ∈ l) m, filter (λ kv, kv.1 ∉ l) m))).
  - cbv beta. by rewrite !map_filter_empty.
  - intros k v m r Hk ->. unfold BaseGraphElement.split_step. simpl.
    case_bool_decide as Hin.
    + rewrite (map_filter_insert_True (λ kv, kv.1 ∈ l)) by done.
      by rewrite (map_filter_insert_not (λ kv, kv.1 ∉ l)) by (simpl; tauto).
    + rewrite (map_filter_insert_True (λ kv, kv.1 ∉ l)) by done.
      by rewrite (map_filter_insert_not (λ kv, kv.1 ∈ l)) by (simpl; tauto).
Qed.

Lemma base_serialize_ok (x : element) (l : list string) :
  l ≠ [] →
  base_serialize x (Some l) =
    Ok (dict_or (SVal <$> filter (λ kv, kv.1 ∈ l) (dict_of x))
          {[ "short_details" :=
               SDict (filter (λ kv, kv.1 ∉ l) (dict_of x)) ]}).
Proof.
  intros Hl. unfold base_serialize.
  destruct l as [|s l]; [done|].
  by rewrite split_dict_filter.
Qed.

Lemma filter_dict_or_promoted (l : list string)
    (m extra : gmap string value) :
  (∀ k, is_Some (extra !! k) → k ∈ l) →
  filter (λ kv, kv.1 ∉ l) (dict_or m extra)
    = filter (λ kv : string * value, kv.1 ∉ l) m.
Proof.
  intros Hextra. apply map_eq. intros k. apply option_eq. intros v.
  rewrite !map_lookup_filter_Some. unfold dict_or. simpl.
  rewrite lookup_union_Some_raw. split.
  - intros [[He | [_ Hm]] Hk]; [|done].
    exfalso. apply Hk, Hextra. eauto.
  - intros [Hm Hk]. split; [|done]. right. split; [|done].
    destruct (extra !! k) eqn:He; [|done]. exfalso. apply Hk, Hextra. eauto.
Qed.

Lemma dict_of_id (x : element) :
  dict_of x !! "id" = Some (value_of_ident (BaseGraphElement.id (base x))).
Proof.
  destruct x as [n|e]; unfold dict_of, Node.__dict__, Edge.__dict__,
    BaseGraphElement.__dict__, dict_or; apply lookup_union_Some_l.
  - apply lookup_singleton_eq.
  - apply lookup_insert_eq.
Qed.

Lemma edge_dict_start_end (e : Edge.t) :
  Edge.__dict__ e !! "start" = Some (value_of_ident (Edge.from_id e)) ∧
  Edge.__dict__ e !! "end" = Some (value_of_ident (Edge.to_id e)).
Proof.
  unfold Edge.__dict__, dict_or. split; apply lookup_union_Some_l.
  - rewrite lookup_insert_ne by done. apply lookup_insert_eq.
  - do 2 (rewrite lookup_insert_ne by done). apply lookup_insert_eq.
Qed.

Lemma dict_of_short_details (x : element) :
  filter (λ kv, kv.1 ∉ promoted_keys x) (dict_of x) =
  filter (λ kv : string * value, kv.1 ∉ promoted_keys x)
         (BaseGraphElement._properties (base x)).
Proof.
  destruct x as [n|e]; apply filter_dict_or_promoted; intros k [v Hk].
  - apply lookup_singleton_Some in Hk as [<- _]. set_solver.
  - unfold promoted_keys, edge_split_list.
    repeat (apply lookup_insert_Some in Hk as [[<- _]|[_ Hk]]; [set_solver|]).
    done.
Qed.

Lemma serialized_promoted (outer inner : gmap string value) (k : string) v :
  k ≠ "short_details" → outer !! k = Some v →
  dict_or (SVal <$> outer) {[ "short_details" := SDict inner ]} !! k
    = Some (SVal v).
Proof.
  intros Hk Ho. unfold dict_or.
  rewrite lookup_union_r by (by apply lookup_singleton_ne).
  by rewrite lookup_fmap, Ho.
Qed.

Lemma serialized_short_details (outer inner : gmap string value) :
  dict_or (SVal <$> outer) {[ "short_details" := SDict inner ]}
    !! "short_details" = Some (SDict inner).
Proof. unfold dict_or. apply lookup_union_Some_l, lookup_singleton_eq. Qed.

Lemma serialize_unfold (x : element) :
  serialize x =
    Ok (dict_or (SVal <$> filter (λ kv, kv.1 ∈ promoted_keys x) (dict_of x))
          {[ "short_details" :=
               SDict (filter (λ kv, kv.1 ∉ promoted_keys x) (dict_of x)) ]}).
Proof.
  destruct x as [n|e]; unfold serialize, promoted_keys.
  - change (base_serialize (ENode n) None)
      with (base_serialize (ENode n) (Some default_split_list)).
    by apply base_serialize_ok.
  - by apply base_serialize_ok.
Qed.

(** C8.  Serializing an entity with its default promoted keys succeeds;
    the ["id"] field of the result is the id of the entity and
    ["short_details"] is the property bag without the promoted keys.  For an
    edge, ["start"] and ["end"] are [from_id] and [to_id]. *)
Theorem serialize_spec (x : element) :
  ∃ d, serialize x = Ok d ∧
    d !! "id" = Some (SVal (value_of_ident (BaseGraphElement.id (base x)))) ∧
    d !! "short_details" =
      Some (SDict (filter (λ kv, kv.1 ∉ promoted_keys x)
                          (BaseGraphElement._properties (base x)))) ∧
    match x with
    | ENode _ => True
    | EEdge e =>
        d !! "start" = Some (SVal (value_of_ident (Edge.from_id e))) ∧
        d !! "end" = Some (SVal (value_of_ident (Edge.to_id e)))
    end.
Proof.
  eexists. split; [apply serialize_unfold|].
  split; [|split].
  - apply serialized_promoted; [done|].
    apply map_lookup_filter_Some_2; [apply dict_of_id|].
    destruct x; set_solver.
  - rewrite serialized_short_details. by rewrite dict_of_short_details.
  - destruct x as [n|e]; [done|].
    destruct (edge_dict_start_end e) as [Hs He].
    split; (apply serialized_promoted; [done|]);
      (apply map_lookup_filter_Some_2; [done | set_solver]).
Qed.

(** ** Entities: enumeration of property names *)

(** What [__iter__] yields: the keys of the bag and the value of the id. *)
Lemma iter_elem_of (self : BaseGraphElement.t) (k : ident) :
  k ∈ BaseGraphElement.__iter__ self ↔
    (∃ s, k = IdStr s ∧ is_Some (BaseGraphElement._properties self !! s))
    ∨ k = BaseGraphElement.id self.
Proof.
  unfold BaseGraphElement.__iter__.
  rewrite elem_of_list_to_set, elem_of_app, list_elem_of_singleton.
  rewrite list_elem_of_fmap. split; (intros [H|H]; [left|by right]).
  - destruct H as (s & -> & Hs). exists s. split; [done|].
    apply list_elem_of_fmap in Hs as ([s' v] & -> & Hs).
    apply elem_of_map_to_list in Hs. eauto.
  - destruct H as (s & -> & [v Hs]). exists s. split; [done|].
    apply list_elem_of_fmap. exists (s, v). split; [done|].
    by apply elem_of_map_to_list.
Qed.

(** C3 fails on the code.  For the node [ex_uuid], whose id is the UUID 77
    and whose bag is [{"name": "A"}], [__iter__] yields ["name"] and the id
    value, not the key ["id"]; the enumeration through [__dict__().keys()]
    does contain ["id"]. *)
Theorem iter_yields_id_value :
  BaseGraphElement.__iter__ ex_uuid = {[ IdStr "name"; IdUuid 77 ]} ∧
  (IdStr "id" ∉ BaseGraphElement.__iter__ ex_uuid) ∧
  get_all_node_property_names ex_single = {[ "name"; "id" ]}.
Proof.
  split; [|split].
  - apply set_eq. intros k. rewrite iter_elem_of. simpl.
    rewrite elem_of_union, !elem_of_singleton. split.
    + intros [(s & -> & [v Hs]) | ->]; [left|by right].
      apply lookup_singleton_Some in Hs as [<- _]. done.
    + intros [-> | ->]; [left|by right]. exists "name". split; [done|].
      by eexists.
  - rewrite iter_elem_of. simpl.
    intros [(s & [= <-] & [v Hs])|[=]].
    by apply lookup_singleton_Some in Hs as [? _].
  - vm_compute. reflexivity.
Qed.

(** ** Graph: lookup by id *)

Lemma find_never {A} (l : list A) : find (λ _, false) l = None.
Proof. by induction l. Qed.

(** Indexing with a node or an edge never finds anything: the id of an
    element is never equal to a node or an edge. *)
Lemma getitem_node (g : t) (n : Node.t) : __getitem__ g (KNode n) = None.
Proof. unfold __getitem__. simpl. by rewrite find_never. Qed.

Lemma getitem_edge (g : t) (e : Edge.t) : __getitem__ g (KEdge e) = None.
Proof. unfold __getitem__. simpl. by rewrite find_never. Qed.

(** Indexing with a raw id scans the nodes, then the edges, and returns
    the first element with that id. *)
Lemma getitem_id (g : t) (i : ident) :
  __getitem__ g (KId i) =
    match find (λ x, bool_decide (BaseGraphElement.id x = i)) (nodes g) with
    | Some x => Some (ENode x)
    | None => EEdge <$> find (λ x, bool_decide (Edge.id x = i)) (edges g)
    end.
Proof. reflexivity. Qed.

Lemma getitem_id_Some (g : t) (i : ident) (x : element) :
  __getitem__ g (KId i) = Some x → BaseGraphElement.id (base x) = i.
Proof.
  rewrite getitem_id.
  destruct (find (λ x, bool_decide (BaseGraphElement.id x = i)) (nodes g))
    as [n|] eqn:Hn.
  - intros [= <-]. apply find_some in Hn as [_ Hn].
    by apply bool_decide_eq_true in Hn.
  - destruct (find (λ x, bool_decide (Edge.id x = i)) (edges g))
      as [e|] eqn:He; [|done].
    intros [= <-]. apply find_some in He as [_ He].
    by apply bool_decide_eq_true in He.
Qed.

Lemma find_first {A} (P : A → bool) (l1 l2 : list A) (x : A) :
  (∀ y, y ∈ l1 → P y = false) → P x = true →
  find P (l1 ++ x :: l2) = Some x.
Proof.
  intros Hl1 Hx. induction l1 as [|y l1 IH]; simpl.
  - by rewrite Hx.
  - rewrite (Hl1 y) by left. apply IH. intros z Hz. apply Hl1. by right.
Qed.

Lemma find_none_iff {A} (P : A → bool) (l : list A) :
  find P l = None ↔ ∀ y, y ∈ l → P y = false.
Proof.
  split.
  - intros Hnone y Hy. apply (find_none P l Hnone). by apply list_elem_of_In.
  - intros Hall. induction l as [|y l IH]; simpl; [done|].
    rewrite (Hall y) by left. apply IH. intros z Hz. apply Hall. by right.
Qed.

(** With a raw id the first node with that id is returned ... *)
Lemma getitem_id_first_node (g : t) (i : ident) l1 (n : Node.t) l2 :
  nodes g = l1 ++ n :: l2 →
  (∀ m, m ∈ l1 → BaseGraphElement.id m ≠ i) →
  BaseGraphElement.id n = i →
  __getitem__ g (KId i) = Some (ENode n).
Proof.
  intros Hn Hl1 Hi. rewrite getitem_id, Hn, (find_first _ l1 l2 n); [done|..].
  - intros m Hm. apply bool_decide_eq_false_2. by apply Hl1.
  - by apply bool_decide_eq_true_2.
Qed.

(** ... then, when no node has the id, the first edge with that id ... *)
Lemma getitem_id_first_edge (g : t) (i : ident) l1 (e : Edge.t) l2 :
  (∀ m, m ∈ nodes g → BaseGraphElement.id m ≠ i) →
  edges g = l1 ++ e :: l2 →
  (∀ m, m ∈ l1 → Edge.id m ≠ i) →
  Edge.id e = i →
  __getitem__ g (KId i) = Some (EEdge e).
Proof.
  intros Hnodes He Hl1 Hi. rewrite getitem_id.
  rewrite (proj2 (find_none_iff _ (nodes g))).
  - rewrite He, (find_first _ l1 l2 e); [done|..].
    + intros m Hm. apply bool_decide_eq_false_2. by apply Hl1.
    + by apply bool_decide_eq_true_2.
  - intros m Hm. apply bool_decide_eq_false_2. by apply Hnodes.
Qed.

(** ... and nothing when no element has the id. *)
Lemma getitem_id_None (g : t) (i : ident) :
  __getitem__ g (KId i) = None ↔
    ∀ x, x ∈ objects g → BaseGraphElement.id (base x) ≠ i.
Proof.
  rewrite getitem_id. unfold objects. split.
  - destruct (find (λ x, bool_decide (BaseGraphElement.id x = i)) (nodes g))
      as [n|] eqn:Hn; [done|].
    destruct (find (λ x, bool_decide (Edge.id x = i)) (edges g))
      as [e|] eqn:He; [done|]. intros _ x.
    rewrite elem_of_app, !list_elem_of_fmap.
    intros [(n & -> & Hin)|(e & -> & Hin)].
    + pose proof (proj1 (find_none_iff _ _) Hn n Hin) as Hf.
      by apply bool_decide_eq_false in Hf.
    + pose proof (proj1 (find_none_iff _ _) He e Hin) as Hf.
      by apply bool_decide_eq_false in Hf.
  - intros Hall.
    rewrite (proj2 (find_none_iff _ (nodes g))).
    + rewrite (proj2 (find_none_iff _ (edges g))); [done|].
      intros e He. apply bool_decide_eq_false_2.
      apply (Hall (EEdge e)), elem_of_app. right.
      apply list_elem_of_fmap. eauto.
    + intros n Hn. apply bool_decide_eq_false_2.
      apply (Hall (ENode n)), elem_of_app. left.
      apply list_elem_of_fmap. eauto.
Qed.

(** C2 fails on the code.  Indexing the graph [ex_dag] with its own node
    [ex_a], or with one of its edges, finds nothing, while indexing with the
    id of [ex_a] returns [ex_a]. *)
Theorem getitem_element_not_found :
  ex_a ∈ nodes ex_dag ∧
  __getitem__ ex_dag (KNode ex_a) = None ∧
  mk_edge 10 "a" "b" ∈ edges ex_dag ∧
  __getitem__ ex_dag (KEdge (mk_edge 10 "a" "b")) = None ∧
  __getitem__ ex_dag (KId (BaseGraphElement.id ex_a)) = Some (ENode ex_a).
Proof.
  split; [by left|]. split; [apply getitem_node|].
  split; [by left|]. split; [apply getitem_edge|]. reflexivity.
Qed.

(** ** Graph: the membership index *)

Lemma init_index (l : list Node.t) (ids : gset ident) :
  foldl (λ ids x, ids ∪ {[ BaseGraphElement.id x ]}) ids l =
    ids ∪ list_to_set (BaseGraphElement.id <$> l).
Proof.
  revert ids. induction l as [|n l IH]; intros ids; simpl.
  - set_solver.
  - rewrite IH. set_solver.
Qed.

Lemma init_in_sync nodes0 edges0 : index_in_sync (__init__ nodes0 edges0).
Proof.
  unfold index_in_sync, __init__. simpl. rewrite init_index. set_solver.
Qed.

Lemma grow_nil (g : t) : grow g [] = g.
Proof.
  destruct g as [ns es ids]. unfold grow. simpl. f_equal.
  - apply app_nil_r.
  - set_solver.
Qed.

Lemma grow_cons (g : t) (n : Node.t) (added : list Node.t) :
  grow {| nodes := nodes g ++ [n];
          edges := edges g;
          _all_node_ids := _all_node_ids g ∪ {[ BaseGraphElement.id n ]} |}
       added
  = grow g (n :: added).
Proof.
  unfold grow. simpl. f_equal.
  - by rewrite <-app_assoc.
  - set_solver.
Qed.

Lemma add_node_foldl (l : list Node.t) (g : t) (acc : list Node.t) :
  foldl add_node_step (g, acc) l =
    (grow g (inserted (_all_node_ids g) l),
     acc ++ inserted (_all_node_ids g) l).
Proof.
  revert g acc. induction l as [|n l IH]; intros g acc; simpl.
  - by rewrite grow_nil, app_nil_r.
  - unfold add_node_step at 2. simpl. case_bool_decide as Hin.
    + apply IH.
    + rewrite IH. simpl. by rewrite grow_cons, <-app_assoc.
Qed.

Lemma add_node_inserted (g : t) (l : list Node.t) :
  add_node g (NodeList l) =
    (grow g (inserted (_all_node_ids g) l), inserted (_all_node_ids g) l).
Proof. unfold add_node. by rewrite add_node_foldl. Qed.

Lemma grow_in_sync (g : t) (added : list Node.t) :
  index_in_sync g → index_in_sync (grow g added).
Proof.
  unfold index_in_sync, grow. simpl. intros ->.
  by rewrite fmap_app, list_to_set_app_L.
Qed.

Lemma add_node_in_sync (g : t) (a : node_arg) :
  index_in_sync g → index_in_sync (add_node g a).1.
Proof.
  intros Hg. destruct a as [n|l].
  - change (add_node g (OneNode n)) with (add_node g (NodeList [n])).
    rewrite add_node_inserted. by apply grow_in_sync.
  - rewrite add_node_inserted. by apply grow_in_sync.
Qed.

Lemma add_edge_in_sync (g : t) (a : edge_arg) :
  index_in_sync g → index_in_sync (add_edge g a).
Proof. done. Qed.

Lemma apply_op_in_sync (g : t) (o : op) :
  index_in_sync g → index_in_sync (apply_op g o).
Proof.
  destruct o; [apply add_node_in_sync | apply add_edge_in_sync].
Qed.

(** C4.  After the constructor and any sequence of [add_node] and
    [add_edge], the membership index is the set of the ids of the nodes in
    the node sequence. *)
Theorem index_in_sync_always (nodes0 : option (list Node.t))
    (edges0 : option (list Edge.t)) (ops : list op) :
  index_in_sync (foldl apply_op (__init__ nodes0 edges0) ops).
Proof.
  generalize (init_in_sync nodes0 edges0).
  generalize (__init__ nodes0 edges0) as g.
  induction ops as [|o ops IH]; intros g Hg; simpl; [done|].
  by apply IH, apply_op_in_sync.
Qed.

(** ** Graph: [add_node] *)

Lemma inserted_sublist (l : list Node.t) (ids : gset ident) :
  sublist (inserted ids l) l.
Proof.
  revert ids. induction l as [|n l IH]; intros ids; simpl; [done|].
  case_bool_decide; [apply sublist_cons | apply sublist_skip]; apply IH.
Qed.

Lemma inserted_fresh (l : list Node.t) (ids : gset ident) (n : Node.t) :
  n ∈ inserted ids l → BaseGraphElement.id n ∉ ids.
Proof.
  revert ids. induction l as [|m l IH]; intros ids; simpl.
  - by intros ?%elem_of_nil.
  - case_bool_decide as Hin; [apply IH|].
    intros [->|Hn]%elem_of_cons; [done|].
    apply IH in Hn. set_solver.
Qed.

Lemma inserted_NoDup (l : list Node.t) (ids : gset ident) :
  NoDup (BaseGraphElement.id <$> inserted ids l).
Proof.
  revert ids. induction l as [|m l IH]; intros ids; simpl; [constructor|].
  case_bool_decide as Hin; [apply IH|].
  rewrite fmap_cons. constructor; [|apply IH].
  intros (n & Hid & Hn)%list_elem_of_fmap.
  apply inserted_fresh in Hn. set_solver.
Qed.

Lemma inserted_covers (l : list Node.t) (ids : gset ident) (n : Node.t) :
  n ∈ l → BaseGraphElement.id n ∉ ids →
  BaseGraphElement.id n ∈ BaseGraphElement.id <$> inserted ids l.
Proof.
  revert ids. induction l as [|m l IH]; intros ids; simpl.
  - by intros ?%elem_of_nil.
  - intros [->|Hn]%elem_of_cons Hfresh.
    + rewrite bool_decide_eq_false_2 by done. rewrite fmap_cons. left.
    + case_bool_decide as Hin; [by apply IH|].
      rewrite fmap_cons.
      destruct (decide (BaseGraphElement.id n = BaseGraphElement.id m))
        as [->|Hne]; [left|right].
      apply IH; [done|]. set_solver.
Qed.

Lemma inserted_known (l : list Node.t) (ids : gset ident) :
  Forall (λ n, BaseGraphElement.id n ∈ ids) l → inserted ids l = [].
Proof.
  induction 1 as [|n l Hn _ IH]; simpl; [done|].
  by rewrite bool_decide_eq_true_2.
Qed.

(** When the argument is the node list of the graph itself, the loop
    iterates over the list it appends to.  On a graph whose index is in
    sync nothing is appended, so the list does not change under the
    loop. *)
Lemma add_node_own_nodes (g : t) :
  index_in_sync g → add_node g (NodeList (nodes g)) = (g, []).
Proof.
  intros Hsync. rewrite add_node_inserted, inserted_known.
  - by rewrite grow_nil.
  - apply Forall_forall. intros n Hn. rewrite Hsync.
    apply elem_of_list_to_set, list_elem_of_fmap. eauto.
Qed.

(** C5.  Adding one node whose id is in the membership index changes
    nothing and returns the empty list.  Adding one node whose id is not in
    the index appends it, so the node sequence grows by one, and returns the
    singleton list of that node.  For a list of nodes the returned list is
    exactly what was appended to the node sequence: a sublist of the
    argument, with pairwise distinct ids, none of them in the index before
    the call, and covering every new id of the argument. *)
Theorem add_node_spec (g : t) (n : Node.t) (l : list Node.t) :
  (BaseGraphElement.id n ∈ _all_node_ids g →
     add_node g (OneNode n) = (g, [])) ∧
  (BaseGraphElement.id n ∉ _all_node_ids g →
     (add_node g (OneNode n)).2 = [n] ∧
     nodes (add_node g (OneNode n)).1 = nodes g ++ [n] ∧
     length (nodes (add_node g (OneNode n)).1) = S (length (nodes g))) ∧
  (nodes (add_node g (NodeList l)).1 = nodes g ++ (add_node g (NodeList l)).2 ∧
   (add_node g (NodeList l)).2 = inserted (_all_node_ids g) l ∧
   sublist (add_node g (NodeList l)).2 l ∧
   NoDup (BaseGraphElement.id <$> (add_node g (NodeList l)).2) ∧
   (∀ m, m ∈ (add_node g (NodeList l)).2 →
      BaseGraphElement.id m ∉ _all_node_ids g) ∧
   (∀ m, m ∈ l → BaseGraphElement.id m ∉ _all_node_ids g →
      BaseGraphElement.id m ∈
        BaseGraphElement.id <$> (add_node g (NodeList l)).2)).
Proof.
  split; [|split].
  - intros Hin. unfold add_node. simpl. unfold add_node_step. simpl.
    by rewrite bool_decide_eq_true_2.
  - intros Hin. unfold add_node. simpl. unfold add_node_step. simpl.
    rewrite bool_decide_eq_false_2 by done. simpl.
    split; [done|]. split; [done|]. rewrite length_app. simpl. lia.
  - rewrite add_node_inserted. simpl.
    split; [done|]. split; [done|].
    split; [apply inserted_sublist|].
    split; [apply inserted_NoDup|].
    split; [apply inserted_fresh | apply inserted_covers].
Qed.

(** [ex_a] is in [ex_dag], [ex_bare] is not. *)
Lemma add_node_spec_witness :
  add_node ex_dag (OneNode ex_a) = (ex_dag, []) ∧
  (add_node ex_dag (OneNode ex_bare)).2 = [ex_bare] ∧
  length (nodes (add_node ex_dag (OneNode ex_bare)).1) = 5 ∧
  (add_node ex_dag (NodeList [ex_a; ex_bare; ex_bare])).2 = [ex_bare].
Proof.
  destruct (add_node_spec ex_dag ex_a [ex_a; ex_bare; ex_bare])
    as (H1 & _ & _ & H3 & _).
  destruct (add_node_spec ex_dag ex_bare []) as (_ & H2 & _).
  split; [apply H1; vm_compute; reflexivity|].
  assert (BaseGraphElement.id ex_bare ∉ _all_node_ids ex_dag) as Hnew.
  { apply (bool_decide_unpack _). vm_compute. reflexivity. }
  destruct (H2 Hnew) as (H21 & _ & H23).
  split; [exact H21|]. split; [exact H23|].
  rewrite H3. vm_compute. reflexivity.
Defined.

(** ** Graph: neighbours *)

Lemma neighbors_step_app (id : ident) (out : list ident) (e : Edge.t) :
  neighbors_step id out e = out ++ edge_neighbors id e.
Proof.
  unfold neighbors_step, edge_neighbors.
  repeat case_bool_decide; simpl; by rewrite <-?app_assoc, ?app_nil_r.
Qed.

Lemma neighbors_foldl (id : ident) (l : list Edge.t) (out : list ident) :
  foldl (neighbors_step id) out l = out ++ (l ≫= edge_neighbors id).
Proof.
  revert out. induction l as [|e l IH]; intros out; simpl.
  - by rewrite app_nil_r.
  - rewrite IH, neighbors_step_app. by rewrite <-app_assoc.
Qed.

Lemma get_node_neighbors_bind (g : t) (id : ident) :
  get_node_neighbors g id = edges g ≫= edge_neighbors id.
Proof. unfold get_node_neighbors. by rewrite neighbors_foldl. Qed.

(** C6.  [get_node_neighbors] scans the edges in order; each edge yields
    its [to_id] when its [from_id] is the id, then its [from_id] when its
    [to_id] is the id.  So the two ends of every edge are neighbours of each
    other, and a self-loop on the id yields the id twice. *)
Theorem get_node_neighbors_spec (g : t) (id : ident) :
  get_node_neighbors g id = (edges g ≫= edge_neighbors id) ∧
  (∀ e, e ∈ edges g →
     Edge.to_id e ∈ get_node_neighbors g (Edge.from_id e) ∧
     Edge.from_id e ∈ get_node_neighbors g (Edge.to_id e)) ∧
  (∀ e, Edge.from_id e = id → Edge.to_id e = id →
     edge_neighbors id e = [id; id]).
Proof.
  split; [apply get_node_neighbors_bind|]. split.
  - intros e He. rewrite !get_node_neighbors_bind.
    split; apply list_elem_of_bind; exists e; (split; [|done]);
      unfold edge_neighbors; apply elem_of_app.
    + left. case_bool_decide; [by apply list_elem_of_singleton | done].
    + right. case_bool_decide; [by apply list_elem_of_singleton | done].
  - intros e Hf Ht. unfold edge_neighbors. rewrite Hf, Ht.
    by rewrite !bool_decide_eq_true_2 by done.
Qed.

(** The edge from [a] to [b] in [ex_dag], and a self-loop on [a]. *)
Lemma get_node_neighbors_spec_witness :
  IdStr "b" ∈ get_node_neighbors ex_dag (IdStr "a") ∧
  IdStr "a" ∈ get_node_neighbors ex_dag (IdStr "b") ∧
  edge_neighbors (IdStr "a") (mk_edge 10 "a" "a") = [IdStr "a"; IdStr "a"].
Proof.
  destruct (get_node_neighbors_spec ex_dag (IdStr "a")) as (_ & Hsym & _).
  destruct (Hsym (mk_edge 10 "a" "b")) as [H1 H2]; [by left|].
  destruct (get_node_neighbors_spec ex_loop (IdStr "a")) as (_ & _ & Hloop).
  split; [exact H1|]. split; [exact H2|].
  apply Hloop; reflexivity.
Defined.

Example ex_loop_neighbors :
  get_node_neighbors ex_loop (IdStr "a") = [IdStr "a"; IdStr "a"].
Proof. reflexivity. Qed.

(** ** Graph: induced edges *)

Lemma all_edges_foldl (node_ids : list ident) (l out : list Edge.t) :
  foldl (all_edges_step node_ids) out l = out ++ filter (induced node_ids) l.
Proof.
  revert out. induction l as [|e l IH]; intros out; simpl.
  - by rewrite app_nil_r.
  - rewrite IH, filter_cons. unfold all_edges_step.
    destruct (decide (induced node_ids e)) as [[H1 H2]|Hn].
    + rewrite !bool_decide_eq_true_2 by done. simpl. by rewrite <-app_assoc.
    + case_bool_decide; [case_bool_decide|]; simpl; try done.
      by destruct Hn.
Qed.

Lemma get_all_edges_filter (g : t) (node_ids : list ident) :
  get_all_edges g node_ids = filter (induced node_ids) (edges g).
Proof. unfold get_all_edges. by rewrite all_edges_foldl. Qed.

(** C7.  Every edge yielded by [get_all_edges] has both ends in
    [node_ids]; every edge of the graph with both ends in [node_ids] is
    yielded; and each entry of the edge sequence with both ends in
    [node_ids] is yielded once, at its place: the result has no duplicates
    when the edge sequence has none. *)
Theorem get_all_edges_spec (g : t) (node_ids : list ident) :
  (∀ e, e ∈ get_all_edges g node_ids →
     Edge.from_id e ∈ node_ids ∧ Edge.to_id e ∈ node_ids) ∧
  (∀ e, e ∈ edges g →
     Edge.from_id e ∈ node_ids → Edge.to_id e ∈ node_ids →
     e ∈ get_all_edges g node_ids) ∧
  (∀ l1 e l2, edges g = l1 ++ e :: l2 →
     Edge.from_id e ∈ node_ids → Edge.to_id e ∈ node_ids →
     get_all_edges g node_ids =
       filter (induced node_ids) l1 ++ e :: filter (induced node_ids) l2) ∧
  (NoDup (edges g) → NoDup (get_all_edges g node_ids)).
Proof.
  rewrite get_all_edges_filter. split; [|split; [|split]].
  - intros e He. by apply list_elem_of_filter in He as [He _].
  - intros e He Hf Ht. by apply list_elem_of_filter.
  - intros l1 e l2 -> Hf Ht. rewrite filter_app, filter_cons.
    by rewrite decide_True by done.
  - apply NoDup_filter.
Qed.

(** The edges of [ex_dag] among [a], [b] and [c]: all but the edge to
    [d]. *)
Lemma get_all_edges_spec_witness :
  get_all_edges ex_dag [IdStr "a"; IdStr "b"; IdStr "c"]
    = [mk_edge 10 "a" "b"; mk_edge 11 "b" "c"; mk_edge 12 "a" "c"].
Proof.
  destruct (get_all_edges_spec ex_dag [IdStr "a"; IdStr "b"; IdStr "c"])
    as (_ & _ & Honce & _).
  rewrite (Honce [mk_edge 10 "a" "b"] (mk_edge 11 "b" "c")
                 [mk_edge 12 "a" "c"; mk_edge 13 "b" "d"]).
  - reflexivity.
  - reflexivity.
  - simpl. set_solver.
  - simpl. set_solver.
Defined.

(** ** Descendant discovery: membership tests and merging *)

Lemma obj_eq_refl (o : obj) : obj_eq o o = true.
Proof. destruct o; simpl; [by apply bool_decide_eq_true_2|done]. Qed.

Lemma obj_in_true (o : obj) (l : list obj) :
  obj_in o l = true ↔ ∃ y, y ∈ l ∧ obj_eq o y = true.
Proof.
  unfold obj_in. rewrite existsb_exists.
  split; intros (y & Hy & Heq); exists y; by rewrite ?list_elem_of_In in *.
Qed.

Lemma obj_in_false (o : obj) (l : list obj) : obj_in o l = false → o ∉ l.
Proof.
  intros Hf Hin. apply not_true_iff_false in Hf. apply Hf, obj_in_true.
  exists o. eauto using obj_eq_refl.
Qed.

Lemma obj_in_app (o : obj) (l k : list obj) :
  obj_in o (l ++ k) = obj_in o l || obj_in o k.
Proof. apply existsb_app. Qed.

Lemma merge_children_spec (cs total : list obj) :
  ∃ added, merge_children total cs = total ++ added ∧ NoDup added ∧
    (∀ o, o ∈ added → o ∈ cs ∧ o ∉ total) ∧
    (∀ o, o ∈ cs → obj_in o (total ++ added) = true).
Proof.
  unfold merge_children. revert total.
  induction cs as [|c cs IH]; intros total; simpl.
  - exists []. rewrite app_nil_r. split; [done|]. split; [constructor|].
    split; by intros o ?%elem_of_nil.
  - destruct (obj_in c total) eqn:Hc.
    + destruct (IH total) as (added & -> & Hnd & Hadd & Hcov).
      exists added. split; [done|]. split; [done|]. split.
      * intros o Ho. destruct (Hadd o Ho). split; [by right|done].
      * intros o [->|Ho]%elem_of_cons; [|by apply Hcov].
        by rewrite obj_in_app, Hc.
    + destruct (IH (total ++ [c])) as (added & -> & Hnd & Hadd & Hcov).
      exists (c :: added). rewrite <-app_assoc. split; [done|].
      split; [|split].
      * constructor; [|done]. intros Hin. apply Hadd in Hin as [_ Hin].
        apply Hin, elem_of_app. right. by left.
      * intros o [->|Ho]%elem_of_cons.
        -- split; [by left | by apply obj_in_false].
        -- destruct (Hadd o Ho) as [? Hn]. split; [by right|].
           intros ?. apply Hn, elem_of_app. by left.
      * intros o [->|Ho]%elem_of_cons.
        -- rewrite obj_in_app. simpl. rewrite obj_eq_refl. simpl.
           by rewrite orb_true_r.
        -- apply Hcov in Ho. by rewrite <-app_assoc in Ho.
Qed.

Lemma merge_returned (total : list obj) (r : option (list obj)) :
  match r with
  | None | Some [] => total
  | Some cs => merge_children total cs
  end = merge_children total (returned r).
Proof. by destruct r as [[|c cs]|]. Qed.

(** ** Descendant discovery: lookups, edges and reachability *)

Lemma lookup_id_objects (g : t) (i : ident) (x : element) :
  lookup_id g i = Some x → x ∈ objects g.
Proof.
  unfold lookup_id. rewrite getitem_id. unfold objects.
  destruct (find (λ x, bool_decide (BaseGraphElement.id x = i)) (nodes g))
    as [n|] eqn:Hn.
  - intros [= <-]. apply find_some in Hn as [Hn _].
    apply elem_of_app. left. apply list_elem_of_fmap. exists n.
    by rewrite list_elem_of_In.
  - destruct (find (λ x, bool_decide (Edge.id x = i)) (edges g))
      as [e|] eqn:He; [|done].
    intros [= <-]. apply find_some in He as [He _].
    apply elem_of_app. right. apply list_elem_of_fmap. exists e.
    by rewrite list_elem_of_In.
Qed.

Lemma lookup_id_id (g : t) (i : ident) (x : element) :
  lookup_id g i = Some x → BaseGraphElement.id (base x) = i.
Proof. apply getitem_id_Some. Qed.

(** Under coherence, identity of lookup results is equality. *)
Lemma obj_eq_lookup (g : t) (i j : ident) :
  coherent g → obj_eq (lookup_id g i) (lookup_id g j) = true →
  lookup_id g i = lookup_id g j.
Proof.
  intros Hg. destruct (lookup_id g i) as [x|] eqn:Hi,
    (lookup_id g j) as [y|] eqn:Hj; simpl; try done.
  intros Heq%bool_decide_eq_true. f_equal.
  eauto using lookup_id_objects.
Qed.

Lemma coherent_of_NoDup (g : t) :
  NoDup ((BaseGraphElement.oid ∘ base) <$> objects g) → coherent g.
Proof.
  intros Hnd x y Hx Hy Heq.
  apply list_elem_of_lookup in Hx as [i Hi], Hy as [j Hj].
  assert (i = j) as ->; [|congruence].
  eapply NoDup_lookup; [done|..]; rewrite list_lookup_fmap.
  - by rewrite Hi.
  - rewrite Hj. simpl. by rewrite Heq.
Qed.

Lemma children_elem_of (g : t) (i : ident) (o : obj) :
  o ∈ children g i ↔ ∃ j, edge_rel g i j ∧ lookup_id g j = o.
Proof.
  unfold children, outgoing, edge_rel. rewrite list_elem_of_fmap. split.
  - intros (e & -> & [He Hin]%list_elem_of_filter).
    exists (Edge.to_id e). eauto.
  - intros (j & (e & Hin & Hf & <-) & <-). exists e. split; [done|].
    by apply list_elem_of_filter.
Qed.

Lemma children_nil (g : t) (i : ident) :
  children g i = [] ↔ outgoing g i = [].
Proof.
  unfold children. split; [apply fmap_nil_inv|by intros ->].
Qed.

Lemma reach_to_id (g : t) (s j : ident) :
  reach g s j → ∃ e, e ∈ edges g ∧ Edge.to_id e = j.
Proof. intros [j' (e & ? & ? & ?)|j' k x _ _ _ (e & ? & ? & ?)]; eauto. Qed.

Lemma reach_tc (g : t) (s j : ident) : reach g s j → tc (edge_rel g) s j.
Proof.
  induction 1 as [j He|j k x _ IH _ _ He]; [by apply tc_once|].
  eapply tc_r; eauto.
Qed.

Lemma reach_trans (g : t) (s j k : ident) (x : element) :
  reach g s j → lookup_id g j = Some x → colon_labelled x →
  reach g j k → reach g s k.
Proof.
  intros Hsj Hx Hcolon Hjk.
  induction Hjk as [k He|k k' y _ IH Hy Hcy He].
  - eapply reach_via; eauto.
  - eapply reach_via; eauto.
Qed.

Lemma labelled_of_targets (g : t) :
  Forall (λ e, labelled g (Edge.to_id e)) (edges g) →
  ∀ s j, reach g s j → labelled g j.
Proof.
  intros Hall s j (e & He & <-)%reach_to_id.
  by apply (proj1 (Forall_forall _ _) Hall).
Qed.

Lemma tc_tc {A} (R : relation A) (x y : A) : tc (tc R) x y → tc R x y.
Proof. induction 1; eauto using tc_trans. Qed.

Lemma acyclic_sn (g : t) (s : ident) : acyclic g → sn (tc (edge_rel g)) s.
Proof.
  intros Hg. apply tc_finite_sn.
  - intros i Hi%tc_tc. by apply (Hg i).
  - exists (Edge.to_id <$> edges g). intros j Hj%tc_tc.
    assert (∀ a b, tc (edge_rel g) a b → b ∈ Edge.to_id <$> edges g) as H.
    { induction 1 as [a b (e & ? & ? & <-)|]; [|done].
      apply list_elem_of_fmap. eauto. }
    eauto.
Qed.

Lemma acyclic_of_rank (g : t) (rank : ident → nat) :
  (∀ e, e ∈ edges g → rank (Edge.to_id e) < rank (Edge.from_id e)) →
  acyclic g.
Proof.
  intros Hrank.
  assert (∀ a b, tc (edge_rel g) a b → rank b < rank a) as H.
  { induction 1 as [a b (e & He & <- & <-)|a b c (e & He & <- & <-) _ IH].
    - by apply Hrank.
    - specialize (Hrank e He). lia. }
  intros i Hi%H. lia.
Qed.

Lemma acyclic_of_rank_Forall (g : t) (rank : ident → nat) :
  Forall (λ e, rank (Edge.to_id e) < rank (Edge.from_id e)) (edges g) →
  acyclic g.
Proof.
  intros Hall. apply (acyclic_of_rank g rank). intros e He.
  by apply (proj1 (Forall_forall _ _) Hall).
Qed.

(** ** Descendant discovery: unfolding *)

Lemma get_all_node_parents_unfold (fuel : nat) (g : t) (start : element)
    (parents : option (list obj)) :
  get_all_node_parents (S fuel) g start parents =
    let total := children g (BaseGraphElement.id (base start)) in
    match total with
    | [] => Some (Ok None)
    | _ =>
        match for_found_node
                (λ found_node total,
                   get_all_node_parents fuel g found_node (Some total))
                parents fuel 0 total with
        | None => None
        | Some (Raise e) => Some (Raise e)
        | Some (Ok total) => Some (Ok (Some total))
        end
    end.
Proof. reflexivity. Qed.

(** ** Descendant discovery: fuel *)

(** More fuel does not change the outcome of a run. *)
Lemma for_found_node_mono rec rec' (ps : option (list obj)) :
  (∀ x total r, rec x total = Some r → rec' x total = Some r) →
  ∀ (fuel fuel' i : nat) (total : list obj) r,
    fuel ≤ fuel' →
    for_found_node rec ps fuel i total = Some r →
    for_found_node rec' ps fuel' i total = Some r.
Proof.
  intros Hrec. induction fuel as [|fuel IH]; intros fuel' i total r Hle;
    [done|].
  destruct fuel' as [|fuel']; [lia|]. simpl.
  destruct (total !! i) as [[y|]|]; [|done..].
  destruct (BaseGraphElement.get_property (base y) "label" false)
    as [[| | |lbl|]|e]; try done.
  destruct (str_find lbl ":" <? 0)%Z; [apply IH; lia|].
  destruct (match ps with
            | None | Some [] => true
            | Some ps => negb (obj_in (Some y) ps)
            end); [|apply IH; lia].
  destruct (rec y total) as [[cs|e]|] eqn:Hy; [| |done].
  - rewrite (Hrec _ _ _ Hy). apply IH; lia.
  - by rewrite (Hrec _ _ _ Hy).
Qed.

Lemma get_all_node_parents_mono (g : t) :
  ∀ (fuel fuel' : nat) (start : element) (ps : option (list obj)) r,
    fuel ≤ fuel' →
    get_all_node_parents fuel g start ps = Some r →
    get_all_node_parents fuel' g start ps = Some r.
Proof.
  induction fuel as [|fuel IH]; intros fuel' start ps r Hle; [done|].
  destruct fuel' as [|fuel']; [lia|].
  rewrite !get_all_node_parents_unfold. cbv zeta.
  destruct (children g (BaseGraphElement.id (base start))) as [|c cs];
    [done|].
  destruct (for_found_node _ ps fuel 0 (c :: cs)) as [r'|] eqn:Hloop;
    [|done].
  intros Hr. rewrite (for_found_node_mono
    (λ found_node total, get_all_node_parents fuel g found_node (Some total))
    (λ found_node total, get_all_node_parents fuel' g found_node (Some total))
    ps) with (fuel := fuel) (r := r'); [done| |lia|done].
  intros x total r''. apply IH. lia.
Qed.

(** ** Descendant discovery: the loop on an acyclic graph *)

Lemma rec_spec_returned (g : t) (x : element) (r : option (list obj)) :
  rec_spec g x r →
  (∀ o, o ∈ children g (BaseGraphElement.id (base x)) → o ∈ returned r) ∧
  (∀ o, o ∈ returned r →
     ∃ j, reach g (BaseGraphElement.id (base x)) j ∧ lookup_id g j = o).
Proof.
  destruct r as [cs|]; simpl.
  - intros (_ & ? & ?). done.
  - intros ->. split; by intros o ?%elem_of_nil.
Qed.

(** The loop of a call from the id [s], whose candidate list was
    [initial], under the assumption that the recursive calls it makes behave
    ([IHrec]). *)
Section loop.

Context (g : t) (s : ident) (parents : option (list obj)).
Context (initial : list obj).
Hypothesis Hcoh : coherent g.
Hypothesis Hlab : ∀ j, reach g s j → labelled g j.
Hypothesis IHrec : ∀ j x,
  reach g s j → lookup_id g j = Some x → colon_labelled x →
  ∀ ps, ∃ fuel0 r,
    (∀ fuel, fuel0 ≤ fuel →
       get_all_node_parents fuel g x ps = Some (Ok r)) ∧
    rec_spec g x r.

Lemma loop_inv_length (total : list obj) :
  loop_inv g s initial total →
  length total ≤ length initial + length (edges g).
Proof.
  intros [(appended & -> & Hnd & _) Hreach].
  rewrite length_app. apply Nat.add_le_mono_l.
  rewrite <-(length_fmap (λ e, lookup_id g (Edge.to_id e)) (edges g)).
  apply submseteq_length, NoDup_submseteq; [done|].
  intros o Ho. destruct (Hreach o) as (j & Hj & <-).
  { apply elem_of_app. by right. }
  apply reach_to_id in Hj as [e [He <-]].
  apply list_elem_of_fmap. eauto.
Qed.

Lemma loop_inv_app (total added : list obj) :
  loop_inv g s initial total → NoDup added →
  (∀ o, o ∈ added →
     (o ∉ total) ∧ ∃ j, reach g s j ∧ lookup_id g j = o) →
  loop_inv g s initial (total ++ added).
Proof.
  intros [(appended & -> & Hnd & Hdisj) Hreach] Hadded Hnew. split.
  - exists (appended ++ added). rewrite <-app_assoc. split; [done|]. split.
    + apply NoDup_app. split; [done|]. split; [|done].
      intros o Ho Ho'. apply Hnew in Ho' as [Ho' _].
      apply Ho', elem_of_app. by right.
    + intros o [Ho|Ho]%elem_of_app; [by apply Hdisj|].
      apply Hnew in Ho as [Ho _]. intros ?. apply Ho, elem_of_app. by left.
  - intros o [Ho|Ho]%elem_of_app; [by apply Hreach|].
    by apply Hnew in Ho as [_ Ho].
Qed.

Lemma closed_app (total added : list obj) (i : nat) :
  i ≤ length total → closed g parents total i →
  closed g parents (total ++ added) i.
Proof.
  intros Hi Hc k x Hk Hx Hcolon Hexp o Ho.
  assert (k < length total) as Hlt by lia.
  rewrite (lookup_app_l total added k Hlt) in Hx.
  apply elem_of_app. left. eauto.
Qed.

Lemma closed_all (total : list obj) (i : nat) :
  total !! i = None → closed g parents total i →
  closed g parents total (length total).
Proof.
  intros Hi Hc k x Hk Hx. apply lookup_ge_None in Hi.
  destruct (decide (k < i)); [eauto|].
  apply lookup_lt_Some in Hx. lia.
Qed.

Lemma closed_skip (total : list obj) (i : nat) (x : element) :
  total !! i = Some (Some x) →
  ¬ (colon_labelled x ∧ must_expand parents x) →
  closed g parents total i → closed g parents total (S i).
Proof.
  intros Hi Hskip Hc k y Hk Hy Hcolon Hexp.
  destruct (decide (k = i)) as [->|]; [|apply (Hc k y); [lia|done..]].
  rewrite Hi in Hy. injection Hy as ->. tauto.
Qed.

Lemma closed_expanded (total : list obj) (i : nat) (x : element) :
  total !! i = Some (Some x) →
  (∀ o, o ∈ children g (BaseGraphElement.id (base x)) → o ∈ total) →
  closed g parents total i → closed g parents total (S i).
Proof.
  intros Hi Hch Hc k y Hk Hy Hcolon Hexp.
  destruct (decide (k = i)) as [->|]; [|apply (Hc k y); [lia|done..]].
  rewrite Hi in Hy. by injection Hy as ->.
Qed.

(** Merging what the call on [x] returned. *)
Lemma merge_step (total : list obj) (i : nat) (j : ident) (x : element)
    (r : option (list obj)) :
  loop_inv g s initial total → closed g parents total i →
  total !! i = Some (Some x) →
  reach g s j → lookup_id g j = Some x → colon_labelled x →
  rec_spec g x r →
  loop_inv g s initial (merge_children total (returned r)) ∧
  closed g parents (merge_children total (returned r)) (S i).
Proof.
  intros Hinv Hc Hi Hj Hx Hcolon [Hsub Hreach]%rec_spec_returned.
  rewrite (lookup_id_id _ _ _ Hx) in Hreach.
  destruct (merge_children_spec (returned r) total)
    as (added & -> & Hnd & Hadd & Hcov).
  assert (loop_inv g s initial (total ++ added)) as Hinv'.
  { apply loop_inv_app; [done..|]. intros o Ho.
    destruct (Hadd o Ho) as [Hr Hn]. split; [done|].
    destruct (Hreach o Hr) as (k & Hk & <-). eauto using reach_trans. }
  split; [done|]. apply closed_expanded with x.
  - rewrite lookup_app_l; [done|]. by eapply lookup_lt_Some.
  - intros o Ho. pose proof (Hsub o Ho) as Hr.
    apply Hcov, obj_in_true in Hr as (y & Hy & Heq).
    destruct (Hreach o (Hsub o Ho)) as (k1 & _ & <-).
    destruct Hinv' as [_ Hall]. destruct (Hall y Hy) as (k2 & _ & <-).
    by rewrite (obj_eq_lookup g k1 k2).
  - apply closed_app; [|done]. apply lookup_lt_Some in Hi. lia.
Qed.

Lemma loop_terminates (n : nat) : ∀ (i : nat) (total : list obj),
  loop_inv g s initial total → closed g parents total i →
  length initial + length (edges g) - i ≤ n →
  ∃ fR fL total',
    (∀ fuelR fuelL, fR ≤ fuelR → fL ≤ fuelL →
       for_found_node
         (λ found_node total,
            get_all_node_parents fuelR g found_node (Some total))
         parents fuelL i total = Some (Ok total')) ∧
    loop_inv g s initial total' ∧
    closed g parents total' (length total').
Proof.
  induction n as [|n IH]; intros i total Hinv Hc Hn.
  all: destruct (total !! i) as [o|] eqn:Hi.
  all: try (exists 0, 1, total; split; [|eauto using closed_all];
            spend_fuel fuelR fuelL; by rewrite Hi).
  { apply lookup_lt_Some in Hi. apply loop_inv_length in Hinv. lia. }
  assert (length initial + length (edges g) - S i ≤ n) as Hn'.
  { apply lookup_lt_Some in Hi. apply loop_inv_length in Hinv. lia. }
  destruct Hinv as [Happ Hreach].
  destruct (Hreach o) as (j & Hj & <-); [by eapply list_elem_of_lookup_2|].
  destruct (Hlab j Hj) as (x & lbl & Hx & Hlbl).
  pose proof (get_property_label x _ Hlbl) as Hget.
  rewrite Hx in Hi.
  destruct (str_find lbl ":" <? 0)%Z eqn:Hfind.
  - (* no colon: [continue] *)
    destruct (IH (S i) total) as (fR & fL & total' & Hrun & Hpost);
      [done| |done|].
    { apply closed_skip with x; [done| |done].
      intros [(lbl' & Hlbl' & Hpos) _]. rewrite Hlbl in Hlbl'.
      injection Hlbl' as <-. apply str_find_colon in Hpos.
      apply Z.ltb_lt in Hfind. lia. }
    exists fR, (S fL), total'. split; [|done].
    spend_fuel fuelR fuelL.
    rewrite Hi, Hget, Hfind. apply Hrun; lia.
  - assert (colon_labelled x) as Hcolon.
    { exists lbl. split; [done|]. apply str_find_colon.
      apply Z.ltb_ge in Hfind. lia. }
    destruct (match parents with
              | None | Some [] => true
              | Some ps => negb (obj_in (Some x) ps)
              end) eqn:Hexp.
    + (* the recursive call *)
      destruct (IHrec j x Hj Hx Hcolon (Some total))
        as (fx & r & Hrec & Hspec).
      destruct (merge_step total i j x r) as [Hinv' Hc']; [done..|].
      destruct (IH (S i) (merge_children total (returned r)))
        as (fR & fL & total' & Hrun & Hpost); [done..|].
      exists (fx `max` fR), (S fL), total'. split; [|done].
      spend_fuel fuelR fuelL.
      rewrite Hi, Hget, Hfind, Hexp, Hrec by lia.
      rewrite merge_returned. apply Hrun; lia.
    + (* already known to the caller *)
      destruct (IH (S i) total) as (fR & fL & total' & Hrun & Hpost);
        [done| |done|].
      { apply closed_skip with x; [done| |done].
        intros [_ Hme]. unfold must_expand in Hme.
        destruct parents as [[|p ps]|]; try done.
        by rewrite Hme in Hexp. }
      exists fR, (S fL), total'. split; [|done].
      spend_fuel fuelR fuelL.
      rewrite Hi, Hget, Hfind, Hexp. apply Hrun; lia.
Qed.

End loop.

(** ** Descendant discovery: the recursion *)

Lemma call_post_rec_spec (g : t) (x : element) ps r :
  call_post g (BaseGraphElement.id (base x)) ps r → rec_spec g x r.
Proof.
  destruct r as [total|]; simpl; [|by intros ->%children_nil].
  intros (Hne & [(appended & -> & _) Hreach] & _).
  split; [by rewrite children_nil|]. split; [|done].
  intros o Ho. apply elem_of_app. by left.
Qed.

Lemma call_terminates (g : t) (x : element) (ps : option (list obj)) :
  coherent g →
  (∀ j, reach g (BaseGraphElement.id (base x)) j → labelled g j) →
  (∀ j y, reach g (BaseGraphElement.id (base x)) j →
     lookup_id g j = Some y → colon_labelled y →
     ∀ ps', ∃ fuel0 r,
       (∀ fuel, fuel0 ≤ fuel →
          get_all_node_parents fuel g y ps' = Some (Ok r)) ∧
       rec_spec g y r) →
  ∃ fuel0 r,
    (∀ fuel, fuel0 ≤ fuel →
       get_all_node_parents fuel g x ps = Some (Ok r)) ∧
    call_post g (BaseGraphElement.id (base x)) ps r.
Proof.
  intros Hcoh Hlab IHrec. set (s := BaseGraphElement.id (base x)) in *.
  destruct (children g s) as [|c cs] eqn:Hch.
  - exists 1, None. split; [|by apply children_nil].
    intros [|fuel] Hf; [lia|]. rewrite get_all_node_parents_unfold.
    fold s. by rewrite Hch.
  - destruct (loop_terminates g s ps (children g s) Hcoh Hlab IHrec
                (length (children g s) + length (edges g)) 0 (children g s))
      as (fR & fL & total' & Hrun & Hinv & Hclosed).
    + split.
      * exists []. rewrite app_nil_r. split; [done|].
        split; [constructor|]. by intros o ?%elem_of_nil.
      * intros o (j & He & <-)%children_elem_of. exists j.
        split; [by apply reach_edge|done].
    + intros k y Hk. lia.
    + lia.
    + exists (S (fR `max` fL)), (Some total'). split.
      * intros [|fuel] Hf; [lia|]. rewrite get_all_node_parents_unfold.
        fold s. cbv zeta. rewrite Hrun by lia. by rewrite Hch.
      * split; [|done]. rewrite <-children_nil. by rewrite Hch.
Qed.

Lemma rec_terminates (g : t) :
  coherent g → acyclic g → ∀ s x,
  BaseGraphElement.id (base x) = s →
  (∀ j, reach g s j → labelled g j) →
  ∀ ps, ∃ fuel0 r,
    (∀ fuel, fuel0 ≤ fuel →
       get_all_node_parents fuel g x ps = Some (Ok r)) ∧
    rec_spec g x r.
Proof.
  intros Hcoh Hacyc s.
  induction (acyclic_sn g s Hacyc) as [s _ IH].
  intros x <- Hlab ps.
  destruct (call_terminates g x ps Hcoh Hlab) as (fuel0 & r & Hrun & Hpost).
  - intros j y Hj Hy Hcolon ps'.
    apply (IH j); [by apply reach_tc|by eapply lookup_id_id|].
    intros k Hk. eapply Hlab, reach_trans; eauto.
  - exists fuel0, r. eauto using call_post_rec_spec.
Qed.

Lemma closed_reach (g : t) (s : ident) (total : list obj) :
  (∀ o, o ∈ children g s → o ∈ total) →
  closed g None total (length total) →
  ∀ j, reach g s j → lookup_id g j ∈ total.
Proof.
  intros Hch Hclosed j Hj.
  induction Hj as [j He|j k x _ IH Hx Hcolon He].
  - apply Hch, children_elem_of. eauto.
  - rewrite Hx in IH. apply list_elem_of_lookup in IH as [i Hi].
    apply (Hclosed i x); [by eapply lookup_lt_Some|done..|].
    apply children_elem_of. exists k.
    by rewrite (lookup_id_id _ _ _ Hx).
Qed.

Lemma children_NoDup (g : t) (s : ident) :
  (∀ j, reach g s j → labelled g j) →
  NoDup (Edge.to_id <$> outgoing g s) → NoDup (children g s).
Proof.
  intros Hlab Hnd. unfold children.
  change (λ e, __getitem__ g (KId (Edge.to_id e)))
    with (lookup_id g ∘ Edge.to_id).
  rewrite list_fmap_compose. apply NoDup_fmap_2_strong; [|done].
  intros j1 j2 Hj1 _ Heq.
  apply list_elem_of_fmap in Hj1 as (e & -> & [He Hin]%list_elem_of_filter).
  destruct (Hlab (Edge.to_id e)) as (x & lbl & Hx & _).
  { apply reach_edge. exists e. eauto. }
  rewrite Hx in Heq. symmetry in Heq.
  apply lookup_id_id in Hx, Heq. congruence.
Qed.

(** C1, amended.  Let the edge relation of [g] be acyclic and let every id
    reached from [start] resolve to an element whose label is a string.
    Then [get_all_node_parents] on [start] terminates: with enough fuel it
    returns a result [r] that no longer depends on the fuel.  [r] is [None]
    exactly when no edge leaves [start].  Otherwise [r] is a list whose
    members are exactly the elements reached from [start] along outgoing
    edges through intermediate elements whose label contains a colon, and
    the list has no duplicates when no two edges leaving [start] have the
    same target.  [coherent g] holds of every Python heap. *)
Theorem get_all_node_parents_acyclic (g : t) (start : element) :
  acyclic g → coherent g →
  (∀ j, reach g (BaseGraphElement.id (base start)) j → labelled g j) →
  ∃ fuel0 r,
    (∀ fuel, fuel0 ≤ fuel →
       get_all_node_parents fuel g start None = Some (Ok r)) ∧
    (r = None ↔ outgoing g (BaseGraphElement.id (base start)) = []) ∧
    (∀ total, r = Some total →
       (∀ o, o ∈ total ↔
          ∃ j, reach g (BaseGraphElement.id (base start)) j ∧
               lookup_id g j = o) ∧
       (NoDup (Edge.to_id <$> outgoing g (BaseGraphElement.id (base start)))
        → NoDup total)).
Proof.
  intros Hacyc Hcoh Hlab.
  destruct (call_terminates g start None Hcoh Hlab)
    as (fuel0 & r & Hrun & Hpost).
  { intros j y Hj Hy Hcolon ps'.
    apply (rec_terminates g Hcoh Hacyc j); [by eapply lookup_id_id|].
    intros k Hk. eapply Hlab, reach_trans; eauto. }
  exists fuel0, r. split; [done|].
  destruct r as [total|]; simpl in Hpost.
  - destruct Hpost as (Hne & [(appended & -> & Hnd & Hdisj) Hreach] & Hcl).
    split; [done|]. intros ? [= <-]. split.
    + intros o. split; [apply Hreach|]. intros (j & Hj & <-).
      apply (closed_reach g (BaseGraphElement.id (base start))); [|done..].
      intros o Ho. apply elem_of_app. by left.
    + intros Hout. apply NoDup_app. split; [|split; [|done]].
      * by apply children_NoDup.
      * intros o Ho Ho'. by apply (Hdisj o).
  - split; [done|]. by intros.
Qed.

Lemma ex_dag_acyclic : acyclic ex_dag.
Proof.
  apply (acyclic_of_rank_Forall _ ex_rank). repeat constructor.
Qed.

Lemma ex_dag_coherent : coherent ex_dag.
Proof.
  apply coherent_of_NoDup. apply (bool_decide_unpack _).
  vm_compute. reflexivity.
Qed.

Lemma ex_dag_labelled s j : reach ex_dag s j → labelled ex_dag j.
Proof.
  apply labelled_of_targets.
  repeat constructor; eexists _, _; (split; [reflexivity|reflexivity]).
Qed.

(** The graph [ex_dag] and its node [ex_a] satisfy the hypotheses. *)
Lemma get_all_node_parents_acyclic_witness :
  acyclic ex_dag ∧ coherent ex_dag ∧
  (∀ j, reach ex_dag (IdStr "a") j → labelled ex_dag j) ∧
  ∃ fuel0 r,
    (∀ fuel, fuel0 ≤ fuel →
       get_all_node_parents fuel ex_dag (ENode ex_a) None = Some (Ok r)) ∧
    (r = None ↔ outgoing ex_dag (IdStr "a") = []) ∧
    (∀ total, r = Some total →
       (∀ o, o ∈ total ↔
          ∃ j, reach ex_dag (IdStr "a") j ∧ lookup_id ex_dag j = o) ∧
       (NoDup (Edge.to_id <$> outgoing ex_dag (IdStr "a")) → NoDup total)).
Proof.
  split; [apply ex_dag_acyclic|].
  split; [apply ex_dag_coherent|].
  split; [apply ex_dag_labelled|].
  apply (get_all_node_parents_acyclic ex_dag (ENode ex_a)).
  - apply ex_dag_acyclic.
  - apply ex_dag_coherent.
  - apply ex_dag_labelled.
Defined.

Example ex_dag_run :
  get_all_node_parents 5 ex_dag (ENode ex_a) None
    = Some (Ok (Some [Some (ENode ex_b); Some (ENode ex_c);
                      Some (ENode ex_d)])).
Proof. vm_compute. reflexivity. Qed.

(** C1 fails as stated.  [ex_parallel] is acyclic and has two edges from
    [a] to [c]: the call returns [c] twice.  [ex_dangling] is acyclic and has
    an edge to an id that no element has: the call raises. *)
Lemma get_all_node_parents_counterexample :
  (acyclic ex_parallel ∧
   (∀ fuel,
      get_all_node_parents (4 + fuel) ex_parallel (ENode ex_a) None
        = Some (Ok (Some [Some (ENode ex_c); Some (ENode ex_c)]))) ∧
   ¬ NoDup [Some (ENode ex_c); Some (ENode ex_c)]) ∧
  (acyclic ex_dangling ∧
   ∀ fuel,
     get_all_node_parents (2 + fuel) ex_dangling (ENode ex_a) None
       = Some (Raise (AttributeError "get_property"))).
Proof.
  split; split.
  - apply (acyclic_of_rank_Forall _ ex_rank). repeat constructor.
  - split.
    + intros fuel. reflexivity.
    + intros Hnd. apply NoDup_cons in Hnd as [Hnd _]. apply Hnd. by left.
  - apply (acyclic_of_rank_Forall _ ex_rank). repeat constructor.
  - intros fuel. reflexivity.
Qed.

(** ** Descendant discovery: a candidate without a label *)


(** A candidate whose label is a string without a colon is skipped. *)
Lemma passes_colon_free (g : t) (ps : option (list obj))
    (initial : list obj) (o : obj) :
  colon_free o → passes g ps initial o.
Proof.
  intros (y & lbl & -> & Hlbl & Hfree). exists y. split; [done|].
  rewrite Hlbl. by intros.
Qed.








(** The run on [ex_expand]: four units of fuel are enough. *)
Example ex_expand_run (fuel : nat) :
  get_all_node_parents (4 + fuel) ex_expand (ENode ex_a) None
    = Some (Raise (KeyError "label")).
Proof. reflexivity. Qed.

(** In [ex_unlabelled] the candidate ahead of [ex_bare] has a label without
    a colon and is skipped. *)
Example ex_unlabelled_run (fuel : nat) :
  get_all_node_parents (3 + fuel) ex_unlabelled (ENode ex_a) None
    = Some (Raise (KeyError "label")).
Proof. reflexivity. Qed.


(** ** Descendant discovery: a cycle *)

(** One turn of the loop on a candidate that is expanded. *)
Lemma for_found_node_expand rec (ps : option (list obj)) (fuel i : nat)
    (total : list obj) (x : element) :
  total !! i = Some (Some x) → colon_labelled x → must_expand ps x →
  for_found_node rec ps (S fuel) i total =
    match rec x total with
    | None => None
    | Some (Raise e) => Some (Raise e)
    | Some (Ok children) =>
        for_found_node rec ps fuel (S i)
          (merge_children total (returned children))
    end.
Proof.
  intros Hi (lbl & Hlbl & Hcolon%str_find_colon) Hexp. simpl.
  rewrite Hi, (get_property_label x _ Hlbl).
  assert ((str_find lbl ":" <? 0)%Z = false) as -> by (apply Z.ltb_ge; lia).
  assert (match ps with
          | None | Some [] => true
          | Some ps => negb (obj_in (Some x) ps)
          end = true) as ->.
  { unfold must_expand in Hexp. destruct ps as [[|p ps]|]; try done.
    by rewrite Hexp. }
  destruct (rec x total) as [[cs|e]|]; [|done..].
  by rewrite merge_returned.
Qed.

Lemma ex_a_colon : colon_labelled (ENode ex_a).
Proof. exists "ns:a". split; [done|]. by exists "ns", "a". Qed.

Lemma ex_b_colon : colon_labelled (ENode ex_b).
Proof. exists "ns:b". split; [done|]. by exists "ns", "b". Qed.

(** On the cycle [a -> b -> a], whose labels have a colon, the call from
    [a] made by [a] and the call from [b] made by [b] call each other: no
    amount of fuel is enough. *)
Lemma ex_cycle_inner (fuel : nat) :
  get_all_node_parents fuel ex_cycle (ENode ex_a) (Some [Some (ENode ex_a)])
    = None ∧
  get_all_node_parents fuel ex_cycle (ENode ex_b) (Some [Some (ENode ex_b)])
    = None.
Proof.
  induction fuel as [|fuel [IHa IHb]]; [done|].
  rewrite !get_all_node_parents_unfold.
  destruct fuel as [|fuel]; [done|].
  split; cbv zeta.
  - change (children ex_cycle (BaseGraphElement.id (base (ENode ex_a))))
      with [Some (ENode ex_b)].
    rewrite (for_found_node_expand _ _ _ _ _ (ENode ex_b));
      [by rewrite IHb|done|apply ex_b_colon|done].
  - change (children ex_cycle (BaseGraphElement.id (base (ENode ex_b))))
      with [Some (ENode ex_a)].
    rewrite (for_found_node_expand _ _ _ _ _ (ENode ex_a));
      [by rewrite IHa|done|apply ex_a_colon|done].
Qed.

(** The unguarded recursion: on a cycle through colon-labelled nodes the
    call never returns. *)
Lemma ex_cycle_diverges (fuel : nat) :
  get_all_node_parents fuel ex_cycle (ENode ex_a) None = None.
Proof.
  destruct fuel as [|[|fuel]]; [done..|].
  rewrite get_all_node_parents_unfold. cbv zeta.
  change (children ex_cycle (BaseGraphElement.id (base (ENode ex_a))))
    with [Some (ENode ex_b)].
  rewrite (for_found_node_expand _ _ _ _ _ (ENode ex_b));
    [|done|apply ex_b_colon|done].
  by rewrite (proj2 (ex_cycle_inner (S fuel))).
Qed.

(** * Further properties *)

(** ** More on entities *)

(** X1.  [split_dict] raises [ValueError] exactly when [strip_list] is
    empty.  Otherwise it returns two dictionaries that partition [in_dict]:
    the first holds the items whose key is in [strip_list], the second the
    other items; they share no key and their union is [in_dict]. *)
Theorem split_dict_partition (in_dict : gmap string value)
    (strip_list : list string) :
  match BaseGraphElement.split_dict in_dict strip_list with
  | Raise e =>
      strip_list = [] ∧ e = ValueError "strip_list must be non-empty"
  | Ok (l, r) =>
      strip_list ≠ [] ∧
      (∀ k v, l !! k = Some v ↔ in_dict !! k = Some v ∧ k ∈ strip_list) ∧
      (∀ k v, r !! k = Some v ↔ in_dict !! k = Some v ∧ k ∉ strip_list) ∧
      l ##ₘ r ∧ l ∪ r = in_dict
  end.
Proof.
  destruct strip_list as [|s0 l0] eqn:Hl; [done|]. rewrite <-Hl.
  assert (strip_list ≠ []) as Hne by (by rewrite Hl).
  rewrite split_dict_filter by done. clear Hl.
  split; [done|].
  split; [intros k v; by rewrite map_lookup_filter_Some|].
  split; [intros k v; by rewrite map_lookup_filter_Some|].
  split; [apply map_disjoint_filter_complement|].
  apply map_filter_union_complement.
Qed.

(** X2.  [set_property] never changes the id of the entity, not even for
    the name ["id"]: [get_property "id"] still answers the id.  For any
    other name, [get_property] after [set_property] returns the value just
    set, and the answer for every other key is unchanged. *)
Theorem set_property_get_property (self : BaseGraphElement.t)
    (name k : string) (v : value) (no_error : bool) :
  BaseGraphElement.id (BaseGraphElement.set_property self name v)
    = BaseGraphElement.id self ∧
  BaseGraphElement.get_property
    (BaseGraphElement.set_property self name v) "id" no_error
    = Ok (value_of_ident (BaseGraphElement.id self)) ∧
  (name ≠ "id" →
   BaseGraphElement.get_property
     (BaseGraphElement.set_property self name v) name no_error = Ok v) ∧
  (k ≠ name →
   BaseGraphElement.get_property
     (BaseGraphElement.set_property self name v) k no_error
   = BaseGraphElement.get_property self k no_error).
Proof.
  split; [done|]. split; [done|].
  unfold BaseGraphElement.get_property, BaseGraphElement.set_property.
  simpl. split.
  - intros Hname%String.eqb_neq. rewrite Hname, lookup_insert_eq.
    by destruct no_error.
  - intros Hk. by rewrite lookup_insert_ne.
Qed.

Lemma dict_of_dom (x : element) :
  dom (dict_of x) =
    dom (BaseGraphElement._properties (base x)) ∪
    match x with
    | ENode _ => {[ "id" ]}
    | EEdge _ => {[ "id"; "start"; "end" ]}
    end.
Proof.
  destruct x as [n|e]; unfold dict_of, Node.__dict__, Edge.__dict__,
    BaseGraphElement.__dict__, dict_or; rewrite dom_union_L.
  - rewrite dom_singleton_L. set_solver.
  - rewrite !dom_insert_L, dom_empty_L. set_solver.
Qed.

Lemma serialized_dom (outer inner : gmap string value) :
  dom (dict_or (SVal <$> outer) {[ "short_details" := SDict inner ]})
    = {[ "short_details" ]} ∪ dom outer.
Proof.
  unfold dict_or. by rewrite dom_union_L, dom_singleton_L, dom_fmap_L.
Qed.

Lemma flatten_serialized (outer inner : gmap string value) :
  outer !! "short_details" = None →
  flatten (dict_or (SVal <$> outer) {[ "short_details" := SDict inner ]})
    = outer ∪ inner.
Proof.
  intros Hout. unfold flatten. rewrite serialized_short_details.
  f_equal. apply map_eq. intros k. rewrite lookup_omap. unfold dict_or.
  destruct (decide (k = "short_details")) as [->|Hk].
  - rewrite lookup_union_l', lookup_singleton_eq by by rewrite lookup_singleton_eq.
    by rewrite Hout.
  - rewrite lookup_union_r by by apply lookup_singleton_ne.
    rewrite lookup_fmap. by destruct (outer !! k).
Qed.

Lemma promoted_not_short_details (x : element) :
  "short_details" ∉ promoted_keys x.
Proof. destruct x; set_solver. Qed.

(** X3.  The keys of a serialized entity are ["short_details"], ["id"], for
    an edge ["start"] and ["end"], and those of ["label"], ["description"],
    ["type"] that the property bag holds: nothing else is promoted. *)
Theorem serialize_keys (x : element) :
  ∃ d, serialize x = Ok d ∧
    dom d =
      {[ "short_details"; "id" ]} ∪
      match x with
      | ENode _ => ∅
      | EEdge _ => {[ "start"; "end" ]}
      end ∪
      (dom (BaseGraphElement._properties (base x)) ∩
       {[ "label"; "description"; "type" ]}).
Proof.
  eexists. split; [apply serialize_unfold|].
  rewrite serialized_dom. apply set_eq. intros k.
  rewrite elem_of_union, elem_of_dom.
  unfold is_Some. setoid_rewrite map_lookup_filter_Some.
  assert ((∃ v, dict_of x !! k = Some v ∧ (k, v).1 ∈ promoted_keys x)
          ↔ k ∈ dom (dict_of x) ∧ k ∈ promoted_keys x) as ->.
  { rewrite elem_of_dom. unfold is_Some. naive_solver. }
  rewrite dict_of_dom. destruct x as [n|e]; simpl;
    unfold default_split_list, edge_split_list; set_solver.
Qed.

Lemma flatten_serialize (x : element) (d : gmap string sval) :
  serialize x = Ok d → flatten d = dict_of x.
Proof.
  rewrite serialize_unfold. intros [= <-]. rewrite flatten_serialized.
  - apply map_filter_union_complement.
  - apply map_lookup_filter_None. right. intros v _.
    apply promoted_not_short_details.
Qed.

(** X4.  Serialization loses nothing: the promoted fields together with
    the fields of ["short_details"] are the items of [__dict__()]. *)
Theorem serialize_flatten (x : element) :
  ∃ d, serialize x = Ok d ∧ flatten d = dict_of x.
Proof.
  eexists. split; [apply serialize_unfold|].
  apply flatten_serialize, serialize_unfold.
Qed.

(** X5.  [BaseGraphElement.serialize] with a split list of its caller.  An
    empty list is the same as no list.  With a non-empty list [l] the call
    succeeds and nests a dictionary under ["short_details"]; the id is at
    the top level when ["id"] is in [l] and inside the nested dictionary
    otherwise.  Nothing is lost unless ["short_details"] itself is in [l]:
    then the property of that name is overwritten by the nested
    dictionary. *)
Theorem base_serialize_custom (x : element) (l : list string) :
  base_serialize x (Some []) = base_serialize x None ∧
  (l ≠ [] →
   ∃ d inner,
     base_serialize x (Some l) = Ok d ∧
     d !! "short_details" = Some (SDict inner) ∧
     ("id" ∈ l →
      d !! "id" = Some (SVal (value_of_ident (BaseGraphElement.id (base x))))) ∧
     ("id" ∉ l →
      inner !! "id" = Some (value_of_ident (BaseGraphElement.id (base x)))) ∧
     ("short_details" ∉ l → flatten d = dict_of x) ∧
     ("short_details" ∈ l → flatten d !! "short_details" = None)).
Proof.
  split; [done|]. intros Hl.
  eexists _, _. split; [by apply base_serialize_ok|].
  split; [apply serialized_short_details|].
  split; [|split; [|split]].
  - intros Hid. apply serialized_promoted; [done|].
    by apply map_lookup_filter_Some_2; [apply dict_of_id|].
  - intros Hid. by apply map_lookup_filter_Some_2; [apply dict_of_id|].
  - intros Hsd. rewrite flatten_serialized.
    + apply map_filter_union_complement.
    + apply map_lookup_filter_None. right. by intros v _.
  - intros Hsd. unfold flatten. rewrite serialized_short_details.
    apply lookup_union_None. split.
    + by rewrite lookup_omap, serialized_short_details.
    + apply map_lookup_filter_None. right. intros v _ Hn. by apply Hn.
Qed.

(** A node with a property called ["short_details"], serialized with that
    key promoted: the property is overwritten by the nested dictionary. *)
Lemma base_serialize_custom_witness :
  ["short_details"] ≠ [] ∧ ("id" ∉ ["short_details"]) ∧
  "short_details" ∈ ["short_details"] ∧
  ∃ d inner,
    base_serialize (ENode ex_details) (Some ["short_details"]) = Ok d ∧
    d !! "short_details" = Some (SDict inner) ∧
    inner !! "id" = Some (VStr "n") ∧
    flatten d !! "short_details" = None ∧
    dict_of (ENode ex_details) !! "short_details" = Some (VStr "kept?").
Proof.
  assert ("id" ∉ ["short_details"]) as Hid.
  { intros Hin%list_elem_of_singleton. discriminate Hin. }
  assert ("short_details" ∈ ["short_details"]) as Hsd by constructor.
  split; [discriminate|]. split; [exact Hid|]. split; [exact Hsd|].
  destruct (base_serialize_custom (ENode ex_details) ["short_details"])
    as [_ H].
  destruct H as (d & inner & Hd & Hin & _ & Hid' & _ & Hlost); [discriminate|].
  exists d, inner. split; [exact Hd|]. split; [exact Hin|].
  split; [exact (Hid' Hid)|]. split; [exact (Hlost Hsd)|].
  vm_compute. reflexivity.
Defined.

Lemma set_property_get_property_witness :
  "label" ≠ "id" ∧ "name" ≠ "label" ∧
  BaseGraphElement.get_property
    (BaseGraphElement.set_property ex_bare "label" (VStr "l")) "label" false
    = Ok (VStr "l") ∧
  BaseGraphElement.get_property
    (BaseGraphElement.set_property ex_bare "label" (VStr "l")) "name" false
    = Ok (VStr "B") ∧
  BaseGraphElement.get_property
    (BaseGraphElement.set_property ex_bare "id" (VStr "other")) "id" false
    = Ok (VStr "bare").
Proof.
  destruct (set_property_get_property ex_bare "label" "name" (VStr "l") false)
    as (_ & _ & H1 & H2).
  destruct (set_property_get_property ex_bare "id" "name" (VStr "other") false)
    as (_ & H3 & _).
  split; [discriminate|]. split; [discriminate|].
  split; [apply H1; discriminate|]. split; [|exact H3].
  rewrite H2; [reflexivity|discriminate].
Defined.

(** ** Graph: serialization *)

Lemma mapM_total {A B} (f : A → result B) (l : list A) :
  (∀ x, ∃ y, f x = Ok y) →
  ∃ ys, mapM f l = Ok ys ∧ Forall2 (λ x y, f x = Ok y) l ys.
Proof.
  intros Hf. induction l as [|x l (ys & Hys & Hall)]; simpl.
  - by exists [].
  - destruct (Hf x) as [y Hy]. exists (y :: ys). rewrite Hy, Hys.
    split; [done|]. by constructor.
Qed.

Lemma bind_Ok {A B} (f : A → result B) (a : A) : Ok a ≫= f = f a.
Proof. reflexivity. Qed.

Lemma serialize_total (x : element) :
  ∃ d, serialize x = Ok d.
Proof. eexists. apply serialize_unfold. Qed.

(** X6.  [InternalGraph.serialize] never raises.  Its result has the keys
    ["nodes"] and ["edges"]; their lists have one document per node and
    per edge, in the order of the graph, each the serialization of that
    element, from which the items of its [__dict__()] are recovered. *)
Theorem graph_serialize_spec (g : t) :
  ∃ ns es,
    graph_serialize g = Ok (<[ "nodes" := ns ]> (<[ "edges" := es ]> ∅)) ∧
    Forall2 (λ n d, serialize (ENode n) = Ok d ∧
                    flatten d = Node.__dict__ n) (nodes g) ns ∧
    Forall2 (λ e d, serialize (EEdge e) = Ok d ∧
                    flatten d = Edge.__dict__ e) (edges g) es.
Proof.
  destruct (mapM_total (λ n, serialize (ENode n)) (nodes g))
    as (ns & Hns & Hn); [intros n; apply serialize_total|].
  destruct (mapM_total (λ e, serialize (EEdge e)) (edges g))
    as (es & Hes & He); [intros e; apply serialize_total|].
  exists ns, es. unfold graph_serialize.
  rewrite Hns, bind_Ok, Hes, bind_Ok. split; [done|]. split.
  - eapply Forall2_impl; [exact Hn|]. intros n d Hd. split; [done|].
    by apply (flatten_serialize (ENode n)).
  - eapply Forall2_impl; [exact He|]. intros e d Hd. split; [done|].
    by apply (flatten_serialize (EEdge e)).
Qed.

(** ** Graph: property names *)

Lemma keys_elem_of (d : gmap string value) (k : string) :
  k ∈ (map_to_list d).*1 ↔ k ∈ dom d.
Proof.
  rewrite elem_of_dom, list_elem_of_fmap. split.
  - intros ([k' v] & -> & Hkv%elem_of_map_to_list). by exists v.
  - intros [v Hv]. exists (k, v). by rewrite elem_of_map_to_list.
Qed.

(** X7.  The property names of the nodes are the keys of the bags of the
    nodes, and ["id"] as soon as the graph has a node.  The property names
    of the edges are the keys of the bags of the edges, and ["id"],
    ["start"], ["end"] as soon as the graph has an edge. *)
Theorem get_all_property_names_spec (g : t) (k : string) :
  (k ∈ get_all_node_property_names g ↔
     ∃ n, n ∈ nodes g ∧
       (k = "id" ∨ k ∈ dom (BaseGraphElement._properties n))) ∧
  (k ∈ get_all_edge_property_names g ↔
     ∃ e, e ∈ edges g ∧
       (k ∈ ["id"; "start"; "end"] ∨
        k ∈ dom (BaseGraphElement._properties (Edge.super e)))).
Proof.
  unfold get_all_node_property_names, get_all_edge_property_names.
  rewrite !elem_of_list_to_set. setoid_rewrite list_elem_of_bind.
  setoid_rewrite keys_elem_of. split.
  - assert (∀ n : Node.t, k ∈ dom (Node.__dict__ n) ↔
              k = "id" ∨ k ∈ dom (BaseGraphElement._properties n)) as Hdom.
    { intros n. change (Node.__dict__ n) with (dict_of (ENode n)).
      rewrite dict_of_dom. simpl. set_solver. }
    setoid_rewrite Hdom. naive_solver.
  - assert (∀ e, k ∈ dom (Edge.__dict__ e) ↔
              k ∈ ["id"; "start"; "end"] ∨
              k ∈ dom (BaseGraphElement._properties (Edge.super e))) as Hdom.
    { intros e. change (Edge.__dict__ e) with (dict_of (EEdge e)).
      rewrite dict_of_dom. simpl. set_solver. }
    setoid_rewrite Hdom. naive_solver.
Qed.

(** ** Graph: property values *)










Example ex_values_run :
  get_all_node_property_values ex_values "w" = [VBool true] ∧
  get_all_node_property_values ex_values "id"
    = [VStr "f"; VStr "o"; VStr "bare"] ∧
  get_all_node_property_values ex_values "" = [].
Proof. vm_compute. done. Qed.

(** ** Graph: [add_edge] *)

(** X9.  [add_edge] appends its argument to the edge sequence, without
    looking at the endpoints, and leaves the nodes and the membership index
    alone.  So the neighbours of an id afterwards are its neighbours before
    followed by what the new edges yield, and likewise for the induced
    edges of a list of ids. *)
Theorem add_edge_spec (g : t) (a : edge_arg) :
  nodes (add_edge g a) = nodes g ∧
  edges (add_edge g a) = edges g ++ edge_list a ∧
  (∀ i, node_exists (add_edge g a) i = node_exists g i) ∧
  (∀ i, get_node_neighbors (add_edge g a) i =
          get_node_neighbors g i ++ (edge_list a ≫= edge_neighbors i)) ∧
  (∀ ids, get_all_edges (add_edge g a) ids =
            get_all_edges g ids ++ filter (induced ids) (edge_list a)).
Proof.
  assert (edges (add_edge g a) = edges g ++ edge_list a) as He
    by (by destruct a).
  split; [done|]. split; [done|]. split; [done|]. split.
  - intros i. by rewrite !get_node_neighbors_bind, He, bind_app.
  - intros ids. by rewrite !get_all_edges_filter, He, filter_app.
Qed.

(** ** Graph: [add_node] again *)

Lemma inserted_ids (l : list Node.t) (ids : gset ident) :
  ids ∪ list_to_set (BaseGraphElement.id <$> inserted ids l)
    = ids ∪ list_to_set (BaseGraphElement.id <$> l).
Proof.
  revert ids. induction l as [|n l IH]; intros ids; simpl; [done|].
  case_bool_decide as Hin.
  - rewrite IH. set_solver.
  - simpl. specialize (IH (ids ∪ {[BaseGraphElement.id n]})). set_solver.
Qed.

Lemma add_node_list (g : t) (a : node_arg) :
  add_node g a = add_node g (NodeList (node_list a)).
Proof. by destruct a. Qed.

(** X10.  [add_node] leaves the edges alone; afterwards [node_exists] holds
    of the ids it held of before and of the ids of the argument; and
    calling [add_node] again with the same argument adds nothing and
    returns the empty list. *)
Theorem add_node_idempotent (g : t) (a : node_arg) :
  edges (add_node g a).1 = edges g ∧
  (∀ i, node_exists (add_node g a).1 i =
          node_exists g i ||
          bool_decide (i ∈ BaseGraphElement.id <$> node_list a)) ∧
  add_node (add_node g a).1 a = ((add_node g a).1, []).
Proof.
  rewrite (add_node_list g a),
    (add_node_list (add_node g (NodeList (node_list a))).1 a).
  set (l := node_list a). rewrite (add_node_inserted g l).
  cbn [fst snd]. rewrite add_node_inserted.
  set (g' := grow g (inserted (_all_node_ids g) l)).
  assert (_all_node_ids g'
          = _all_node_ids g ∪ list_to_set (BaseGraphElement.id <$> l)) as Hids.
  { unfold g', grow. cbn [_all_node_ids]. apply inserted_ids. }
  split; [done|]. split.
  - intros i. unfold node_exists. rewrite Hids.
    rewrite <-bool_decide_or. apply bool_decide_ext.
    by rewrite elem_of_union, elem_of_list_to_set.
  - rewrite inserted_known; [by rewrite grow_nil|].
    apply Forall_forall. intros n Hn. rewrite Hids.
    apply elem_of_union. right. apply elem_of_list_to_set.
    apply list_elem_of_fmap. eauto.
Qed.

(** ** Graph: lookup by id, in full *)

Lemma find_split {A} (P : A → bool) (l : list A) (x : A) :
  find P l = Some x →
  ∃ l1 l2, l = l1 ++ x :: l2 ∧ P x = true ∧ ∀ m, m ∈ l1 → P m = false.
Proof.
  induction l as [|y l IH]; simpl; [done|].
  destruct (P y) eqn:Hy.
  - intros [= ->]. exists [], l. split; [done|]. split; [done|].
    by intros m ?%elem_of_nil.
  - intros (l1 & l2 & -> & Hx & Hl1)%IH. exists (y :: l1), l2.
    split; [done|]. split; [done|].
    intros m [->|Hm]%elem_of_cons; [done|by apply Hl1].
Qed.

(** X11.  Indexing the graph with a raw id returns the first node with
    that id; when no node has it, the first edge with that id; and [None]
    exactly when no element has it. *)
Theorem getitem_first_match (g : t) (i : ident) :
  match __getitem__ g (KId i) with
  | Some (ENode n) =>
      ∃ l1 l2, nodes g = l1 ++ n :: l2 ∧ BaseGraphElement.id n = i ∧
        ∀ m, m ∈ l1 → BaseGraphElement.id m ≠ i
  | Some (EEdge e) =>
      (∀ m, m ∈ nodes g → BaseGraphElement.id m ≠ i) ∧
      ∃ l1 l2, edges g = l1 ++ e :: l2 ∧ Edge.id e = i ∧
        ∀ m, m ∈ l1 → Edge.id m ≠ i
  | None => ∀ x, x ∈ objects g → BaseGraphElement.id (base x) ≠ i
  end.
Proof.
  destruct (__getitem__ g (KId i)) as [[n|e]|] eqn:Hget.
  - rewrite getitem_id in Hget.
    destruct (find (λ x, bool_decide (BaseGraphElement.id x = i)) (nodes g))
      as [n'|] eqn:Hn.
    + injection Hget as ->.
      apply find_split in Hn as (l1 & l2 & Hl & Hi%bool_decide_eq_true & Hl1).
      exists l1, l2. split; [done|]. split; [done|].
      intros m Hm%Hl1. by apply bool_decide_eq_false in Hm.
    + by destruct (find (λ x, bool_decide (Edge.id x = i)) (edges g)).
  - rewrite getitem_id in Hget.
    destruct (find (λ x, bool_decide (BaseGraphElement.id x = i)) (nodes g))
      as [n'|] eqn:Hn; [done|].
    destruct (find (λ x, bool_decide (Edge.id x = i)) (edges g))
      as [e'|] eqn:He; [|done].
    injection Hget as ->. split.
    + intros m Hm. pose proof (proj1 (find_none_iff _ _) Hn m Hm) as Hf.
      by apply bool_decide_eq_false in Hf.
    + apply find_split in He as (l1 & l2 & Hl & Hi%bool_decide_eq_true & Hl1).
      exists l1, l2. split; [done|]. split; [done|].
      intros m Hm%Hl1. by apply bool_decide_eq_false in Hm.
  - by apply getitem_id_None.
Qed.

(** ** Descendant discovery: the shape of a result *)

Lemma get_property_label_inv (x : element) (v : value) :
  BaseGraphElement.get_property (base x) "label" false = Ok v →
  BaseGraphElement._properties (base x) !! "label" = Some v.
Proof.
  unfold BaseGraphElement.get_property. simpl.
  destruct (BaseGraphElement._properties (base x) !! "label"); [|done].
  by intros [= ->].
Qed.

(** A loop that ends has extended the list, and every candidate from the
    index on passed the label test. *)
Lemma loop_result rec (ps : option (list obj)) :
  ∀ (fuel i : nat) (total r : list obj),
    for_found_node rec ps fuel i total = Some (Ok r) →
    total `prefix_of` r ∧
    ∀ j o, i ≤ j → r !! j = Some o → string_labelled o.
Proof.
  induction fuel as [|fuel IH]; intros i total r; [done|]. simpl.
  destruct (total !! i) as [[y|]|] eqn:Hy; [|done|].
  - destruct (BaseGraphElement.get_property (base y) "label" false)
      as [[| | |lbl|]|e] eqn:Hlbl; try done.
    apply get_property_label_inv in Hlbl.
    assert (∀ total', total `prefix_of` total' →
              for_found_node rec ps fuel (S i) total' = Some (Ok r) →
              total `prefix_of` r ∧
              ∀ j o, i ≤ j → r !! j = Some o → string_labelled o) as Hnext.
    { intros total' Hpre [Hpre' Hall]%IH.
      assert (total `prefix_of` r) as Hr by (by etrans).
      split; [done|]. intros j o Hj Ho.
      destruct (decide (j = i)) as [->|Hne]; [|apply (Hall j); [lia|done]].
      rewrite (prefix_lookup_Some _ _ _ _ Hy Hr) in Ho.
      injection Ho as <-. by exists y, lbl. }
    destruct (str_find lbl ":" <? 0)%Z; [by apply Hnext|].
    destruct (match ps with
              | None | Some [] => true
              | Some ps => negb (obj_in (Some y) ps)
              end); [|by apply Hnext].
    destruct (rec y total) as [[cs|e]|]; try done.
    rewrite merge_returned.
    destruct (merge_children_spec (returned cs) total) as (added & -> & _).
    apply Hnext. by apply prefix_app_r.
  - intros [= <-]. split; [done|]. intros j o Hj Ho.
    apply lookup_ge_None in Hy. apply lookup_lt_Some in Ho. lia.
Qed.

(** X12.  The shape of what [get_all_node_parents] returns.  With no edge
    leaving [start] it returns [None] at once, whatever the graph, and it
    returns [None] in no other case.  A list it returns is never empty, it
    starts with the targets of the edges leaving [start] in the order of the
    edges, and each of its members is an element whose label is a string:
    it never holds [None]. *)
Theorem get_all_node_parents_result (g : t) (start : element)
    (ps : option (list obj)) (fuel : nat) :
  (outgoing g (BaseGraphElement.id (base start)) = [] →
     get_all_node_parents (S fuel) g start ps = Some (Ok None)) ∧
  (get_all_node_parents fuel g start ps = Some (Ok None) →
     outgoing g (BaseGraphElement.id (base start)) = []) ∧
  (∀ total,
     get_all_node_parents fuel g start ps = Some (Ok (Some total)) →
     total ≠ [] ∧
     children g (BaseGraphElement.id (base start)) `prefix_of` total ∧
     Forall string_labelled total).
Proof.
  split; [|split].
  - intros Hout%children_nil. rewrite get_all_node_parents_unfold.
    cbv zeta. by rewrite Hout.
  - destruct fuel as [|fuel]; [done|].
    rewrite get_all_node_parents_unfold. cbv zeta.
    destruct (children g (BaseGraphElement.id (base start))) as [|c cs] eqn:Hch;
      [by intros _; apply children_nil|].
    by destruct (for_found_node _ ps fuel 0 (c :: cs)) as [[?|?]|].
  - intros total. destruct fuel as [|fuel]; [done|].
    rewrite get_all_node_parents_unfold. cbv zeta.
    destruct (children g (BaseGraphElement.id (base start))) as [|c cs] eqn:Hch;
      [done|].
    destruct (for_found_node _ ps fuel 0 (c :: cs)) as [[r|?]|] eqn:Hloop;
      try done.
    intros [= ->]. apply loop_result in Hloop as [Hpre Hall].
    split; [|split; [done|]].
    + intros ->. by apply prefix_nil_not in Hpre.
    + apply Forall_lookup. intros j o Ho. apply (Hall j); [lia|done].
Qed.

(** The run on [ex_dag] returns its three descendants. *)
Lemma get_all_node_parents_result_witness :
  get_all_node_parents 5 ex_dag (ENode ex_a) None
    = Some (Ok (Some [Some (ENode ex_b); Some (ENode ex_c);
                      Some (ENode ex_d)])) ∧
  children ex_dag (IdStr "a")
    `prefix_of` [Some (ENode ex_b); Some (ENode ex_c); Some (ENode ex_d)] ∧
  Forall string_labelled
    [Some (ENode ex_b); Some (ENode ex_c); Some (ENode ex_d)].
Proof.
  assert (get_all_node_parents 5 ex_dag (ENode ex_a) None
          = Some (Ok (Some [Some (ENode ex_b); Some (ENode ex_c);
                            Some (ENode ex_d)]))) as Hrun
    by (vm_compute; reflexivity).
  split; [exact Hrun|].
  destruct (get_all_node_parents_result ex_dag (ENode ex_a) None 5)
    as (_ & _ & H).
  destruct (H _ Hrun) as (_ & Hpre & Hall). split; [exact Hpre|exact Hall].
Defined.

(** ** Descendant discovery: two nodes that reach each other *)

Lemma must_expand_None (x : element) : must_expand None x.
Proof. done. Qed.

(** X13.  The [parents] argument does not stop the recursion on two nodes
    that reach each other.  Let the first edge leaving [xa] lead to [xb] and
    the first edge leaving [xb] lead to [xa], both with a colon in their
    label, neither being its own direct descendant.  Then the call on [xa]
    returns for no amount of fuel: the calls on [xa] and [xb] call each
    other for ever. *)
Theorem two_cycle_diverges (g : t) (xa xb : element) (ea eb : Edge.t)
    (ra rb : list Edge.t) :
  outgoing g (BaseGraphElement.id (base xa)) = ea :: ra →
  lookup_id g (Edge.to_id ea) = Some xb →
  outgoing g (BaseGraphElement.id (base xb)) = eb :: rb →
  lookup_id g (Edge.to_id eb) = Some xa →
  colon_labelled xa → colon_labelled xb →
  obj_in (Some xa) (children g (BaseGraphElement.id (base xa))) = false →
  obj_in (Some xb) (children g (BaseGraphElement.id (base xb))) = false →
  ∀ fuel, get_all_node_parents fuel g xa None = None.
Proof.
  intros Ha Hxb Hb Hxa Hca Hcb Hna Hnb.
  set (ta := children g (BaseGraphElement.id (base xa))) in *.
  set (tb := children g (BaseGraphElement.id (base xb))) in *.
  assert (ta !! 0 = Some (Some xb)) as Hta.
  { unfold ta, children. rewrite Ha. simpl. by rewrite <-Hxb. }
  assert (tb !! 0 = Some (Some xa)) as Htb.
  { unfold tb, children. rewrite Hb. simpl. by rewrite <-Hxa. }
  assert (ta ≠ []) as Hane by (by intros Hnil; rewrite Hnil in Hta).
  assert (tb ≠ []) as Hbne by (by intros Hnil; rewrite Hnil in Htb).
  assert (must_expand (Some ta) xa) as Hea.
  { unfold must_expand. by destruct ta. }
  assert (must_expand (Some tb) xb) as Heb.
  { unfold must_expand. by destruct tb. }
  assert (∀ fuel,
            get_all_node_parents fuel g xb (Some ta) = None ∧
            get_all_node_parents fuel g xa (Some tb) = None) as Hinner.
  { induction fuel as [|fuel [IHb IHa]]; [done|].
    rewrite !get_all_node_parents_unfold. cbv zeta. fold ta tb.
    destruct fuel as [|fuel]; [by destruct ta, tb|].
    split.
    - rewrite (for_found_node_expand _ _ _ _ _ xa Htb Hca Hea), IHa.
      by destruct tb.
    - rewrite (for_found_node_expand _ _ _ _ _ xb Hta Hcb Heb), IHb.
      by destruct ta. }
  intros [|[|fuel]]; [done|by rewrite get_all_node_parents_unfold; cbv zeta;
                        fold ta; destruct ta|].
  rewrite get_all_node_parents_unfold. cbv zeta. fold ta.
  rewrite (for_found_node_expand _ _ _ _ _ xb Hta Hcb (must_expand_None xb)).
  rewrite (proj1 (Hinner (S fuel))). by destruct ta.
Qed.

Lemma two_cycle_diverges_witness :
  outgoing ex_cycle (IdStr "a") = mk_edge 10 "a" "b" :: [] ∧
  lookup_id ex_cycle (IdStr "b") = Some (ENode ex_b) ∧
  outgoing ex_cycle (IdStr "b") = mk_edge 11 "b" "a" :: [] ∧
  lookup_id ex_cycle (IdStr "a") = Some (ENode ex_a) ∧
  colon_labelled (ENode ex_a) ∧ colon_labelled (ENode ex_b) ∧
  obj_in (Some (ENode ex_a)) (children ex_cycle (IdStr "a")) = false ∧
  obj_in (Some (ENode ex_b)) (children ex_cycle (IdStr "b")) = false ∧
  ∀ fuel, get_all_node_parents fuel ex_cycle (ENode ex_a) None = None.
Proof.
  do 4 (split; [reflexivity|]).
  split; [apply ex_a_colon|]. split; [apply ex_b_colon|].
  do 2 (split; [reflexivity|]).
  apply (two_cycle_diverges ex_cycle (ENode ex_a) (ENode ex_b)
           (mk_edge 10 "a" "b") (mk_edge 11 "b" "a") [] []);
    try reflexivity; [apply ex_a_colon|apply ex_b_colon].
Defined.

(** ** Graph: the constructor against [add_node] *)

Lemma inserted_all (l : list Node.t) (ids : gset ident) :
  NoDup (BaseGraphElement.id <$> l) →
  (∀ n, n ∈ l → BaseGraphElement.id n ∉ ids) →
  inserted ids l = l.
Proof.
  revert ids. induction l as [|n l IH]; intros ids Hnd Hfresh; simpl; [done|].
  rewrite fmap_cons in Hnd. apply NoDup_cons in Hnd as [Hn Hnd].
  rewrite bool_decide_eq_false_2 by (apply Hfresh; by left).
  f_equal. apply IH; [done|]. intros m Hm.
  apply not_elem_of_union. split; [apply Hfresh; by right|].
  intros Heq%elem_of_singleton. apply Hn, list_elem_of_fmap. eauto.
Qed.

(** X14.  The constructor takes the node list as it is, duplicates
    included, while [add_node] on an empty graph keeps one node per id.  The
    two ways of building a graph agree exactly when the ids of the list are
    pairwise distinct. *)
Theorem init_add_node (l : list Node.t) (es : option (list Edge.t)) :
  nodes (__init__ (Some l) es) = l ∧
  NoDup (BaseGraphElement.id <$>
           nodes (add_node (__init__ None es) (NodeList l)).1) ∧
  ((add_node (__init__ None es) (NodeList l)).1 = __init__ (Some l) es
     ↔ NoDup (BaseGraphElement.id <$> l)).
Proof.
  rewrite add_node_inserted. cbn [fst]. split; [done|]. split.
  { apply inserted_NoDup. }
  split.
  - intros Heq. apply (f_equal nodes) in Heq. simpl in Heq.
    rewrite <-Heq. apply inserted_NoDup.
  - intros Hnd. rewrite inserted_all; [|done|set_solver].
    unfold grow, __init__. simpl. f_equal. by rewrite init_index.
Qed.
